(** * searchFile: the content index and the ranked file search of [src/main.ts]

    A shallow embedding of the classes [ContentIndex] and [FileSearchModal]
    and of the event wiring of [FileSearchPlugin.onload], followed by the
    properties of the specification that are stated about them. *)

From Stdlib Require Import ZArith List Lia Bool String Ascii.
From Stdlib Require Import Sorting.Sorted Sorting.Permutation.
From stdpp Require Import gmap list sorting lexico.

Open Scope Z_scope.

(* ##################################################################### *)
(** * Part I: the model *)
(* ##################################################################### *)

(* ===================================================================== *)
(** * JavaScript strings *)
(* ===================================================================== *)

(** A JavaScript string is a sequence of UTF-16 code units; [s.length] is
    the number of code units. *)
Abbreviation jsstring := (list N).

Module Js.

(** An ASCII literal, one code unit per character. *)
Fixpoint lit (s : string) : jsstring :=
  match s with
  | EmptyString => []
  | String c r => N_of_ascii c :: lit r
  end.

Definition len (s : jsstring) : Z := Z.of_nat (length s).

(** [s.startsWith(q)] at position 0, used by the scan of [indexOf]. *)
Fixpoint isPrefix (q s : jsstring) : bool :=
  match q, s with
  | [], _ => true
  | _ :: _, [] => false
  | a :: q', b :: s' => (a =? b)%N && isPrefix q' s'
  end.

(** [text.indexOf(q)] scanning from offset [i]: the first offset at which
    [q] occurs, or [-1]. *)
Fixpoint indexOfFrom (i : Z) (text q : jsstring) : Z :=
  if isPrefix q text then i
  else match text with
       | [] => -1
       | _ :: rest => indexOfFrom (i + 1) rest q
       end.

Definition indexOf (text q : jsstring) : Z := indexOfFrom 0 text q.

(** [text.includes(q)] is [indexOf] compared with [-1]. *)
Definition includes (text q : jsstring) : bool :=
  negb (indexOf text q =? -1).

(** [s.slice(start, end)], with the clamping of negative and too large
    arguments. *)
Definition slice (s : jsstring) (start end_ : Z) : jsstring :=
  let n := len s in
  let from := if start <? 0 then Z.max (n + start) 0 else Z.min start n in
  let to := if end_ <? 0 then Z.max (n + end_) 0 else Z.min end_ n in
  take (Z.to_nat (to - from)) (drop (Z.to_nat from) s).

(** The code units matched by [\s] in a regular expression and removed by
    [trim]: WhiteSpace and LineTerminator of ECMAScript. *)
Definition isWhiteSpace (c : N) : bool :=
  ((9 <=? c) && (c <=? 13) || (c =? 32) || (c =? 160) || (c =? 5760)
   || (8192 <=? c) && (c <=? 8202) || (c =? 8232) || (c =? 8233)
   || (c =? 8239) || (c =? 8287) || (c =? 12288) || (c =? 65279))%N.

Definition space : N := 32%N.

(** [s.replace(/\s+/g, " ")]: [inRun] says that the code unit before the
    current one belongs to a run already replaced. *)
Fixpoint collapseFrom (inRun : bool) (s : jsstring) : jsstring :=
  match s with
  | [] => []
  | c :: rest =>
      if isWhiteSpace c
      then (if inRun then collapseFrom true rest
            else space :: collapseFrom true rest)
      else c :: collapseFrom false rest
  end.

Definition replaceWhiteSpaceRuns (s : jsstring) : jsstring :=
  collapseFrom false s.

Fixpoint trimStart (s : jsstring) : jsstring :=
  match s with
  | [] => []
  | c :: rest => if isWhiteSpace c then trimStart rest else s
  end.

Definition trimEnd (s : jsstring) : jsstring := rev (trimStart (rev s)).

Definition trim (s : jsstring) : jsstring := trimEnd (trimStart s).

(** Truthiness of a string: the empty string is falsy. *)
Definition truthy (s : jsstring) : bool :=
  match s with [] => false | _ => true end.

(** [Array.prototype.sort] with a comparator: the sort is stable. Elements
    are inserted from the right, each before the first element it does not
    come after. *)
Fixpoint insertBy {A} (cmp : A -> A -> Z) (x : A) (l : list A) : list A :=
  match l with
  | [] => [x]
  | y :: rest => if cmp x y <=? 0 then x :: l else y :: insertBy cmp x rest
  end.

Fixpoint sort {A} (cmp : A -> A -> Z) (l : list A) : list A :=
  match l with
  | [] => []
  | x :: rest => insertBy cmp x (sort cmp rest)
  end.

(** The lexicographic comparison of code units: the instance of
    [localeCompare] used to run the model, and the order the specification
    names. The result is negative, zero or positive. *)
Fixpoint codeUnitCompare (a b : jsstring) : Z :=
  match a, b with
  | [], [] => 0
  | [], _ :: _ => -1
  | _ :: _, [] => 1
  | x :: a', y :: b' =>
      if (x <? y)%N then -1
      else if (y <? x)%N then 1
      else codeUnitCompare a' b'
  end.

(** Lowercasing of the ASCII range, the instance of [toLowerCase] used to
    run the model on ASCII inputs. *)
Definition asciiLowerUnit (c : N) : N :=
  if ((65 <=? c) && (c <=? 90))%N then (c + 32)%N else c.

Definition asciiLower (s : jsstring) : jsstring := map asciiLowerUnit s.

(** A comparison that ignores the case of ASCII letters, as the collation
    of the host does before anything else: it puts [a.md] before [B.md]. *)
Definition caselessCompare (a b : jsstring) : Z :=
  codeUnitCompare (asciiLower a) (asciiLower b).

End Js.

(* ===================================================================== *)
(** * Completions and methods *)
(* ===================================================================== *)

(** How a call, or the promise it returns, ends: normally with a value, or
    with an exception (a rejected promise). *)
Inductive completion (A : Type) : Type :=
| Normal (a : A)
| Throw.
Arguments Normal {A} a.
Arguments Throw {A}.

(** ** The host: files and the vault *)

(** [file.stat.size]; [None] when [typeof size] is not ["number"]. *)
Record FileStats := { size : option Z }.

(** [TFile] of the host; [stat] is read through [file.stat?.size]. *)
Record TFile := {
  path : jsstring;
  extension : jsstring;
  stat : option FileStats
}.

(** [app.vault]: the catalog and the outcome of [cachedRead] for a file. *)
Record Vault := {
  getFiles : list TFile;
  cachedRead : TFile -> completion jsstring
}.

(** ** The state of a [ContentIndex] *)

Record ContentIndex := {
  textByPath : gmap jsstring jsstring;
  building : bool
}.

Definition newContentIndex : ContentIndex :=
  {| textByPath := ∅; building := false |}.

(** A method that may mutate the index and may throw: the state reached is
    kept when it throws, as in JavaScript. *)
Definition Method (A : Type) : Type := ContentIndex -> completion A * ContentIndex.

Definition ret {A} (a : A) : Method A := fun s => (Normal a, s).

Definition bind {A B} (m : Method A) (k : A -> Method B) : Method B :=
  fun s => match m s with
           | (Normal a, s') => k a s'
           | (Throw, s') => (Throw, s')
           end.

Notation "m >>= k" := (bind m k) (at level 58, left associativity).
Notation "m >> k" := (bind m (fun _ => k)) (at level 58, left associativity).

(** [try { body } catch { handler }] *)
Definition tryCatch {A} (body handler : Method A) : Method A :=
  fun s => match body s with
           | (Normal a, s') => (Normal a, s')
           | (Throw, s') => handler s'
           end.

(** [try { body } finally { fin }] for a [fin] that does not throw. *)
Definition tryFinally {A} (body : Method A) (fin : Method unit) : Method A :=
  fun s => match body s with
           | (r, s') => match fin s' with
                        | (Normal _, s'') => (r, s'')
                        | (Throw, s'') => (Throw, s'')
                        end
           end.

(** [await p] for a promise that settles as [r]. *)
Definition await {A} (r : completion A) : Method A := fun s => (r, s).

Definition mapSet (k v : jsstring) : Method unit :=
  fun s => (Normal tt, {| textByPath := <[k := v]> (textByPath s);
                          building := building s |}).

Definition mapDelete (k : jsstring) : Method unit :=
  fun s => (Normal tt, {| textByPath := delete k (textByPath s);
                          building := building s |}).

Definition setBuilding (b : bool) : Method unit :=
  fun s => (Normal tt, {| textByPath := textByPath s; building := b |}).

Definition getBuilding : Method bool := fun s => (Normal (building s), s).

(** [for (const x of xs) body(x)] *)
Fixpoint forEach {A} (xs : list A) (body : A -> Method unit) : Method unit :=
  match xs with
  | [] => ret tt
  | x :: rest => body x >> forEach rest body
  end.

(** ** Values produced by the search *)

(** The object [{ snippet, at }] returned by [findSnippet]. *)
Module Found.
Record t := { snippet : jsstring; at_ : Z }.
End Found.

(** [matchIn: "path" | "content"] *)
Inductive MatchIn := MatchPath | MatchContent.

Record SearchResult := {
  file : TFile;
  isOpen : bool;
  isActive : bool;
  matchIn : MatchIn;
  snippet : option jsstring
}.

(** The fields of a [FileSearchModal] set by its constructor; its [index]
    field is a reference to the plugin's [ContentIndex], whose current state
    is passed to [getSuggestions]. *)
Record FileSearchModal := {
  allFiles : list TFile;
  openFilePaths : gset jsstring;
  activeFilePath : option jsstring
}.

(* ===================================================================== *)
(** * class ContentIndex and class FileSearchModal *)
(* ===================================================================== *)

Section Host.

(** [String.prototype.toLowerCase] of the host, over the whole of Unicode. *)
Variable toLowerCase : jsstring -> jsstring.

(** [String.prototype.localeCompare] of the host: the collation of the
    locale, negative, zero or positive. *)
Variable localeCompare : jsstring -> jsstring -> Z.

Definition maxFileBytes : Z := 1000000.

Definition indexExtensions : gset jsstring :=
  {[ Js.lit "md"; Js.lit "txt"; Js.lit "canvas" ]}.

(** [file.stat?.size] when it is a number. *)
Definition statSize (file : TFile) : option Z :=
  match stat file with
  | Some st => size st
  | None => None
  end.

(** [typeof file.stat?.size === "number" && file.stat.size > maxFileBytes] *)
Definition overSizeLimit (file : TFile) : bool :=
  match statSize file with
  | Some n => maxFileBytes <? n
  | None => false
  end.

Definition indexFileIfEligible (vault : Vault) (file : TFile) : Method unit :=
  if negb (bool_decide (extension file ∈ indexExtensions)) then
    mapDelete (path file)
  else if overSizeLimit file then
    mapDelete (path file)
  else
    tryCatch
      (await (cachedRead vault file) >>= fun raw =>
       mapSet (path file) (toLowerCase raw))
      (mapDelete (path file)).

(** [buildInitialIndex] run without interleaving: the loop over the catalog
    inside the single-flight guard. The periodic [setTimeout] yield changes
    no state. *)
Definition buildInitialIndex (vault : Vault) : Method unit :=
  getBuilding >>= fun b =>
  if b then ret tt
  else
    setBuilding true >>
    tryFinally
      (forEach (getFiles vault) (indexFileIfEligible vault))
      (setBuilding false).

Definition remove (file : TFile) (s : ContentIndex) : ContentIndex :=
  {| textByPath := delete (path file) (textByPath s); building := building s |}.

Definition rename (oldPath : jsstring) (file : TFile) (s : ContentIndex)
  : ContentIndex :=
  match textByPath s !! oldPath with
  | Some v =>
      {| textByPath := <[path file := v]> (delete oldPath (textByPath s));
         building := building s |}
  | None => s
  end.

(** The ellipsis markers ["… "] and [" …"]; U+2026 is one code unit. *)
Definition ellipsisBefore : jsstring := [8230%N; 32%N].
Definition ellipsisAfter : jsstring := [32%N; 8230%N].

Definition findSnippet (s : ContentIndex) (p query : jsstring)
  : option Found.t :=
  match textByPath s !! p with
  | None => None
  | Some text =>
      if negb (Js.truthy text) then None
      else
        let idx := Js.indexOf text query in
        if idx =? -1 then None
        else
          let start := Z.max 0 (idx - 40) in
          let end_ := Z.min (Js.len text) (idx + Js.len query + 60) in
          let sn := Js.slice text start end_ in
          let sn := Js.trim (Js.replaceWhiteSpaceRuns sn) in
          let sn := if 0 <? start then ellipsisBefore ++ sn else sn in
          let sn := if end_ <? Js.len text then sn ++ ellipsisAfter else sn in
          Some {| Found.snippet := sn; Found.at_ := idx |}
  end.

Definition contains (s : ContentIndex) (p query : jsstring) : bool :=
  match textByPath s !! p with
  | None => false
  | Some text => Js.truthy text && Js.includes text query
  end.

(** ** class FileSearchModal *)

(** The body of the loop of [getSuggestions] for one file: [None] is the
    [continue], [Some r] the result pushed. *)
Definition suggestionFor (modal : FileSearchModal) (index : ContentIndex)
    (q : jsstring) (searchContent : bool) (f : TFile) : option SearchResult :=
  let isActive := bool_decide (activeFilePath modal = Some (path f)) in
  let isOpen := bool_decide (path f ∈ openFilePaths modal) in
  let pathLc := toLowerCase (path f) in
  let pathHit := Js.includes pathLc q in
  let sn := if negb pathHit && searchContent
            then findSnippet index (path f) q else None in
  let contentHit := match sn with Some _ => true | None => false end in
  let snippet := Found.snippet <$> sn in
  if negb pathHit && negb contentHit then None
  else Some {| file := f;
               isOpen := isOpen;
               isActive := isActive;
               matchIn := if pathHit then MatchPath else MatchContent;
               snippet := snippet |}.

Definition matchInEqb (a b : MatchIn) : bool :=
  match a, b with
  | MatchPath, MatchPath | MatchContent, MatchContent => true
  | _, _ => false
  end.

(** The comparator passed to [results.sort]. *)
Definition compareResults (a b : SearchResult) : Z :=
  if negb (eqb (isActive a) (isActive b)) then
    (if isActive a then -1 else 1)
  else if negb (eqb (isOpen a) (isOpen b)) then
    (if isOpen a then -1 else 1)
  else if negb (matchInEqb (matchIn a) (matchIn b)) then
    (match matchIn a with MatchPath => -1 | MatchContent => 1 end)
  else if negb (Js.len (path (file a)) =? Js.len (path (file b))) then
    Js.len (path (file a)) - Js.len (path (file b))
  else localeCompare (path (file a)) (path (file b)).

(** The results pushed by the loop, in catalog order. *)
Definition candidates (modal : FileSearchModal) (index : ContentIndex)
    (q : jsstring) : list SearchResult :=
  omap (suggestionFor modal index q (3 <=? Js.len q)) (allFiles modal).

(** [results.sort(...)] followed by [results.slice(0, 200)]. *)
Definition rank (results : list SearchResult) : list SearchResult :=
  take 200 (Js.sort compareResults results).

Definition getSuggestions (modal : FileSearchModal) (index : ContentIndex)
    (query : jsstring) : list SearchResult :=
  let q := toLowerCase (Js.trim query) in
  if negb (Js.truthy q) then []
  else rank (candidates modal index q).

End Host.

(* ===================================================================== *)
(** * The event handlers registered by [FileSearchPlugin.onload] *)
(* ===================================================================== *)

(** What a vault event carries: a file, or a folder that fails the
    [instanceof TFile] test. *)
Inductive TAbstractFile :=
| File (f : TFile)
| Folder (p : jsstring).

Section Handlers.

Variable toLowerCase : jsstring -> jsstring.

Definition onModify (vault : Vault) (file : TAbstractFile) : Method unit :=
  match file with
  | File f => indexFileIfEligible toLowerCase vault f
  | Folder _ => ret tt
  end.

Definition onCreate (vault : Vault) (file : TAbstractFile) : Method unit :=
  match file with
  | File f => indexFileIfEligible toLowerCase vault f
  | Folder _ => ret tt
  end.

Definition onDelete (file : TAbstractFile) (s : ContentIndex) : ContentIndex :=
  match file with
  | File f => remove f s
  | Folder _ => s
  end.

Definition onRename (file : TAbstractFile) (oldPath : jsstring)
    (s : ContentIndex) : ContentIndex :=
  match file with
  | File f => rename oldPath f s
  | Folder _ => s
  end.

End Handlers.

(* ===================================================================== *)
(** * The plugin under interleaving *)
(* ===================================================================== *)

(** An invocation of [buildInitialIndex] that passed the guard and is
    suspended at an [await]: the catalog it captured and its loop counter. *)
Record BuildTask := { files : list TFile; next : nat }.

(** The plugin's index together with the builds in flight. *)
Record Plugin := { index : ContentIndex; running : list BuildTask }.

Definition initialPlugin : Plugin :=
  {| index := newContentIndex; running := [] |}.

(** What the event loop runs next. The read of one file and the update of
    the map that follows it are one action, placed where the update happens:
    the [vault] of the action gives the outcome of that read, whenever it
    was started. *)
Inductive Action :=
| CallBuild (vault : Vault)
| ResumeBuild (k : nat) (vault : Vault)
| VaultModify (vault : Vault) (file : TAbstractFile)
| VaultCreate (vault : Vault) (file : TAbstractFile)
| VaultDelete (file : TAbstractFile)
| VaultRename (file : TAbstractFile) (oldPath : jsstring).

Section Interleaving.

Variable toLowerCase : jsstring -> jsstring.

(** A call of [buildInitialIndex]: the guard, then [building = true] and
    the catalog captured. *)
Definition callBuild (vault : Vault) (p : Plugin) : Plugin :=
  if building (index p) then p
  else {| index := snd (setBuilding true (index p));
          running := running p ++ [{| files := getFiles vault; next := 0 |}] |}.

(** The [k]-th build in flight handles its next file, or leaves the loop
    and runs the [finally] block. *)
Definition resumeBuild (k : nat) (vault : Vault) (p : Plugin) : Plugin :=
  match running p !! k with
  | None => p
  | Some t =>
      match files t !! next t with
      | Some f =>
          match indexFileIfEligible toLowerCase vault f (index p) with
          | (Normal _, s') =>
              {| index := s';
                 running := <[k := {| files := files t; next := S (next t) |}]>
                              (running p) |}
          | (Throw, s') =>
              {| index := snd (setBuilding false s');
                 running := delete k (running p) |}
          end
      | None =>
          {| index := snd (setBuilding false (index p));
             running := delete k (running p) |}
      end
  end.

Definition exec (p : Plugin) (a : Action) : Plugin :=
  match a with
  | CallBuild vault => callBuild vault p
  | ResumeBuild k vault => resumeBuild k vault p
  | VaultModify vault file =>
      {| index := snd (onModify toLowerCase vault file (index p));
         running := running p |}
  | VaultCreate vault file =>
      {| index := snd (onCreate toLowerCase vault file (index p));
         running := running p |}
  | VaultDelete file =>
      {| index := onDelete file (index p); running := running p |}
  | VaultRename file oldPath =>
      {| index := onRename file oldPath (index p); running := running p |}
  end.

Definition execAll (actions : list Action) : Plugin :=
  foldl exec initialPlugin actions.

End Interleaving.

(** The guard flag is set exactly while one build is in flight. *)
Definition singleFlight (p : Plugin) : Prop :=
  (building (index p) = false /\ running p = []) \/
  (building (index p) = true /\ length (running p) = 1%nat).

(* ===================================================================== *)
(** * The index with reads in flight *)
(* ===================================================================== *)

(** The eligibility test made by [indexFileIfEligible] before it reads. *)
Definition eligible (file : TFile) : bool :=
  bool_decide (extension file ∈ indexExtensions) && negb (overSizeLimit file).

(** [indexFileIfEligible] up to its [await]: the two filters, run when the
    method is called. The result is [true] when [cachedRead] has been called
    and the method is suspended on its promise. *)
Definition indexFileStart (file : TFile) : Method bool :=
  if negb (bool_decide (extension file ∈ indexExtensions)) then
    mapDelete (path file) >> ret false
  else if overSizeLimit file then
    mapDelete (path file) >> ret false
  else
    ret true.

Section Reads.

Variable toLowerCase : jsstring -> jsstring.

(** [indexFileIfEligible] from its [await] on: the rest of the [try] block
    and the [catch], run when the promise of [cachedRead] has settled as
    [r]. *)
Definition indexFileSettle (file : TFile) (r : completion jsstring)
  : Method unit :=
  tryCatch
    (await r >>= fun raw => mapSet (path file) (toLowerCase raw))
    (mapDelete (path file)).

End Reads.

(** The index together with the calls of [indexFileIfEligible] that are
    suspended on their read, oldest first, each with the file as it was
    when the call tested it. *)
Record EventLoop := { store : ContentIndex; reads : list TFile }.

Definition idleLoop : EventLoop :=
  {| store := newContentIndex; reads := [] |}.

(** What the event loop runs next. No caller of [indexFileIfEligible] runs
    anything of its own on the index after the call: the handlers do not
    await it, and the loop of a build only goes on to its next call. So a
    call is one turn, whoever makes it, and the settling of its read is
    another, at any later time and in any order. The call reads [file.path]
    again when it resumes: [now] is the file object at that time, which
    belongs to the host and may have changed since the call. A build also
    sets and clears its guard flag. Events that carry a folder change
    nothing. *)
Inductive Turn :=
| Observes (file : TFile)
| Settles (k : nat) (now : TFile) (r : completion jsstring)
| Deletes (file : TFile)
| Renames (file : TFile) (oldPath : jsstring)
| Guards (b : bool).

(** A write to the map, as it lands: the delete of a call whose file fails
    a filter, the write that follows a settled read (for the file as it was
    tested, at the path it has [now]), the delete of [remove], and the move
    of a [rename] that found an entry. *)
Inductive MapOp :=
| Rejected (file : TFile)
| Landed (file now : TFile) (r : completion jsstring)
| Removed (file : TFile)
| Moved (oldPath : jsstring) (file : TFile).

Section Turns.

Variable toLowerCase : jsstring -> jsstring.

Definition turn (l : EventLoop) (t : Turn) : EventLoop :=
  match t with
  | Observes f =>
      match indexFileStart f (store l) with
      | (Normal true, s') => {| store := s'; reads := reads l ++ [f] |}
      | (_, s') => {| store := s'; reads := reads l |}
      end
  | Settles k now r =>
      match reads l !! k with
      | Some _ =>
          {| store := snd (indexFileSettle toLowerCase now r (store l));
             reads := delete k (reads l) |}
      | None => l
      end
  | Deletes f => {| store := remove f (store l); reads := reads l |}
  | Renames f oldPath =>
      {| store := rename oldPath f (store l); reads := reads l |}
  | Guards b => {| store := snd (setBuilding b (store l)); reads := reads l |}
  end.

Definition turns (ts : list Turn) : EventLoop := foldl turn idleLoop ts.

(** The write a turn makes to the map, if any. *)
Definition opOfTurn (l : EventLoop) (t : Turn) : option MapOp :=
  match t with
  | Observes f => if eligible f then None else Some (Rejected f)
  | Settles k now r =>
      match reads l !! k with
      | Some f => Some (Landed f now r)
      | None => None
      end
  | Deletes f => Some (Removed f)
  | Renames f oldPath =>
      match textByPath (store l) !! oldPath with
      | Some _ => Some (Moved oldPath f)
      | None => None
      end
  | Guards _ => None
  end.

(** The writes of a run, in the order in which they land. *)
Fixpoint logFrom (l : EventLoop) (ts : list Turn) : list MapOp :=
  match ts with
  | [] => []
  | t :: rest =>
      match opOfTurn l t with
      | Some op => op :: logFrom (turn l t) rest
      | None => logFrom (turn l t) rest
      end
  end.

Definition log (ts : list Turn) : list MapOp := logFrom idleLoop ts.

End Turns.

(** The path or paths a write names. *)
Definition namesOp (P : jsstring) (op : MapOp) : bool :=
  match op with
  | Rejected f => bool_decide (path f = P)
  | Landed _ now _ => bool_decide (path now = P)
  | Removed f => bool_decide (path f = P)
  | Moved oldPath f => bool_decide (oldPath = P) || bool_decide (path f = P)
  end.

(** The most recent write of a log that names [P]. *)
Fixpoint lastOp (P : jsstring) (ops : list MapOp) : option MapOp :=
  match ops with
  | [] => None
  | op :: rest =>
      match lastOp P rest with
      | Some later => Some later
      | None => if namesOp P op then Some op else None
      end
  end.

(** The writes that leave an entry at [P]: a read that succeeded, and a
    move to [P]. *)
Definition leavesEntry (P : jsstring) (op : MapOp) : Prop :=
  match op with
  | Landed _ _ (Normal _) => True
  | Moved _ f => path f = P
  | _ => False
  end.

(** The two filters in the words of the code: the extension is allowed, and
    the size is not a number above the limit. *)
Definition passedFilters (file : TFile) : Prop :=
  extension file ∈ indexExtensions /\
  forall n, statSize file = Some n -> n <= maxFileBytes.

(** The file given to the most recent call of [indexFileIfEligible] for the
    path [P]: the specification's last observation of [P]. *)
Fixpoint lastObserved (P : jsstring) (ts : list Turn) : option TFile :=
  match ts with
  | [] => None
  | t :: rest =>
      match lastObserved P rest with
      | Some f => Some f
      | None =>
          match t with
          | Observes f => if bool_decide (path f = P) then Some f else None
          | _ => None
          end
      end
  end.

Section Upsert.

Variable toLowerCase : jsstring -> jsstring.

(** The map after [indexFileIfEligible], as one expression. *)
Definition upserted (vault : Vault) (file : TFile)
    (m : gmap jsstring jsstring) : gmap jsstring jsstring :=
  if eligible file then
    match cachedRead vault file with
    | Normal raw => <[path file := toLowerCase raw]> m
    | Throw => delete (path file) m
    end
  else delete (path file) m.

(** What an observation leaves at the path of the file. *)
Definition observed (vault : Vault) (f : TFile) : option jsstring :=
  if eligible f then
    match cachedRead vault f with
    | Normal raw => Some (toLowerCase raw)
    | Throw => None
    end
  else None.

End Upsert.

(* ===================================================================== *)
(** * The words of the specification *)
(* ===================================================================== *)

(** [q] occurs in [text] at offset [i]: the specification's "substring". *)
Definition occursAt (text q : jsstring) (i : nat) : Prop :=
  exists pre post, text = pre ++ q ++ post /\ length pre = i.

Definition isSubstring (q text : jsstring) : Prop :=
  exists i, occursAt text q i.

Definition firstOccurrence (text q : jsstring) (i : nat) : Prop :=
  occursAt text q i /\ forall j, (j < i)%nat -> ~ occursAt text q j.

Definition allWhiteSpace (s : jsstring) : Prop :=
  Forall (fun c => Js.isWhiteSpace c = true) s.

(** [s] does not begin with a whitespace code unit. *)
Definition startsClean (s : jsstring) : Prop :=
  match s with
  | [] => True
  | c :: _ => Js.isWhiteSpace c = false
  end.

(** [t] is [s] with every maximal run of whitespace replaced by one space. *)
Inductive runsCollapsed : jsstring -> jsstring -> Prop :=
| rc_nil : runsCollapsed [] []
| rc_unit c s t :
    Js.isWhiteSpace c = false -> runsCollapsed s t ->
    runsCollapsed (c :: s) (c :: t)
| rc_run ws s t :
    ws <> [] -> allWhiteSpace ws -> startsClean s -> runsCollapsed s t ->
    runsCollapsed (ws ++ s) (Js.space :: t).

(** [t] is [s] without its leading and trailing whitespace. *)
Definition trimmedOf (s t : jsstring) : Prop :=
  exists l r, s = l ++ t ++ r /\ allWhiteSpace l /\ allWhiteSpace r /\
              startsClean t /\ startsClean (rev t).

(** A comparator is consistent when swapping its arguments flips the sign
    of its result and "not after" is transitive. *)
Definition consistent {A} (cmp : A -> A -> Z) : Prop :=
  (forall a b, cmp a b <= 0 <-> 0 <= cmp b a) /\
  (forall a b c, cmp a b <= 0 -> cmp b c <= 0 -> cmp a c <= 0).

(** [c1], ties broken by [c2]. *)
Definition thenBy {A} (c1 c2 : A -> A -> Z) (a b : A) : Z :=
  if c1 a b =? 0 then c2 a b else c1 a b.

(** Comparison of a numeric key, smaller first. *)
Definition byKey {A} (key : A -> Z) (a b : A) : Z := key a - key b.

(** The keys of the first four criteria as numbers, smaller first. *)
Definition activeKey (r : SearchResult) : Z := if isActive r then 0 else 1.
Definition openKey (r : SearchResult) : Z := if isOpen r then 0 else 1.
Definition matchKey (r : SearchResult) : Z :=
  match matchIn r with MatchPath => 0 | MatchContent => 1 end.
Definition lengthKey (r : SearchResult) : Z := Js.len (path (file r)).

(** The five keys of the ranking with the lexicographic order of the code
    units as the fifth, in the words of the specification: [a] comes
    strictly before [b]. *)
Definition precedes (a b : SearchResult) : Prop :=
  (isActive a = true /\ isActive b = false) \/
  (isActive a = isActive b /\
   ((isOpen a = true /\ isOpen b = false) \/
    (isOpen a = isOpen b /\
     ((matchIn a = MatchPath /\ matchIn b = MatchContent) \/
      (matchIn a = matchIn b /\
       ((length (path (file a)) < length (path (file b)))%nat \/
        (length (path (file a)) = length (path (file b)) /\
         lexico (path (file a)) (path (file b))))))))).

(** [a] and [b] agree on all five keys. *)
Definition sameRank (a b : SearchResult) : Prop :=
  isActive a = isActive b /\ isOpen a = isOpen b /\
  matchIn a = matchIn b /\ path (file a) = path (file b).

Definition notAfter (a b : SearchResult) : Prop :=
  precedes a b \/ sameRank a b.

(** The order of the five keys with a comparison [lc] of paths as the
    fifth key: [a] comes strictly before [b]. *)
Definition precedesBy (lc : jsstring -> jsstring -> Z)
    (a b : SearchResult) : Prop :=
  (isActive a = true /\ isActive b = false) \/
  (isActive a = isActive b /\
   ((isOpen a = true /\ isOpen b = false) \/
    (isOpen a = isOpen b /\
     ((matchIn a = MatchPath /\ matchIn b = MatchContent) \/
      (matchIn a = matchIn b /\
       ((length (path (file a)) < length (path (file b)))%nat \/
        (length (path (file a)) = length (path (file b)) /\
         lc (path (file a)) (path (file b)) < 0))))))).

(** [a] and [b] agree on the first four keys and [lc] finds their paths
    equal. *)
Definition sameRankBy (lc : jsstring -> jsstring -> Z)
    (a b : SearchResult) : Prop :=
  isActive a = isActive b /\ isOpen a = isOpen b /\
  matchIn a = matchIn b /\
  length (path (file a)) = length (path (file b)) /\
  lc (path (file a)) (path (file b)) = 0.

Definition notAfterBy (lc : jsstring -> jsstring -> Z)
    (a b : SearchResult) : Prop :=
  precedesBy lc a b \/ sameRankBy lc a b.

(* ===================================================================== *)
(** * Sample vaults *)
(* ===================================================================== *)

Definition note (p ext : string) (bytes : option Z) : TFile :=
  {| path := Js.lit p; extension := Js.lit ext;
     stat := Some {| size := bytes |} |}.

Definition sampleText : jsstring :=
  Js.lit "alpha beta   gamma delta epsilon zeta eta theta iota kappa lambda mu nu xi omicron pi rho sigma tau upsilon phi chi psi omega".

Definition sampleIndex : ContentIndex :=
  {| textByPath := {[ Js.lit "n.md" := sampleText ]}; building := false |}.

Definition alphaMd : TFile := note "alpha.md" "md" (Some 11).
Definition brokenMd : TFile := note "broken.md" "md" (Some 5).
Definition gammaTxt : TFile := note "gamma.txt" "txt" (Some 11).

(** A vault of three notes in which [broken.md] cannot be read. *)
Definition sampleVault : Vault :=
  {| getFiles := [alphaMd; brokenMd; gammaTxt];
     cachedRead := fun f =>
       if bool_decide (path f = Js.lit "broken.md") then Throw
       else if bool_decide (path f = Js.lit "alpha.md")
            then Normal (Js.lit "Alpha Notes")
            else Normal (Js.lit "Gamma  Rays") |}.

(** An index that still holds a text for [broken.md]. *)
Definition staleIndex : ContentIndex :=
  {| textByPath := {[ Js.lit "broken.md" := Js.lit "stale" ]};
     building := false |}.

(** A note whose [stat.size] is not a number and whose text is longer than
    [maxFileBytes]. *)
Definition unsizedMd : TFile := note "huge.md" "md" None.

Definition hugeText : jsstring := replicate (Z.to_nat 1000001) 97%N.

Definition hugeVault : Vault :=
  {| getFiles := [unsizedMd]; cachedRead := fun _ => Normal hugeText |}.

Definition emptyMd : TFile := note "empty.md" "md" (Some 0).

Definition emptyVault : Vault :=
  {| getFiles := [emptyMd]; cachedRead := fun _ => Normal [] |}.

Definition helloMd : TFile := note "a.md" "md" (Some 11).
Definition helloPng : TFile := note "a.png" "png" (Some 11).

Definition modalOver (catalog : list TFile) : FileSearchModal :=
  {| allFiles := catalog; openFilePaths := ∅; activeFilePath := None |}.

(** A note is created, its read settles, and it is renamed to a [png]. *)
Definition renamedToPng : list Turn :=
  [Observes helloMd; Settles 0 helloMd (Normal (Js.lit "Hello there"));
   Renames helloPng (Js.lit "a.md")].

(** A note is created, its read settles, and it is deleted. *)
Definition createdThenDeleted : list Turn :=
  [Observes helloMd; Settles 0 helloMd (Normal (Js.lit "Hello there"));
   Deletes helloMd].

(** A note whose size is not a number is created, and its read settles. *)
Definition unsizedCreated : list Turn :=
  [Observes unsizedMd; Settles 0 unsizedMd (Normal (Js.lit "Hello there"))].

(** The note [a.md] once it has grown to 2,000,000 bytes. *)
Definition grownMd : TFile := note "a.md" "md" (Some 2000000).

(** A note is modified twice, at 11 bytes and then at 2,000,000, and the
    read started by the first event settles after the second event. *)
Definition grownWhileRead : list Turn :=
  [Observes helloMd; Observes grownMd;
   Settles 0 helloMd (Normal (Js.lit "Hello there"))].

(** A note is renamed to a [png], and the [png] is then modified. *)
Definition renamedThenModified : list Turn :=
  renamedToPng ++ [Observes helloPng].

Definition milkNote : TFile := note "n.md" "md" (Some 9).

Definition milkVault : Vault :=
  {| getFiles := [milkNote]; cachedRead := fun _ => Normal (Js.lit "Buy  milk") |}.

(** The index after [n.md] was read. *)
Definition milkIndex : ContentIndex :=
  snd (indexFileIfEligible Js.asciiLower milkVault milkNote newContentIndex).

(** 200 files whose paths contain ["milk"]. *)
Definition milkCrowd : list TFile :=
  map (fun k => {| path := Js.lit "milk" ++ [(N.of_nat k + 1000)%N];
                   extension := Js.lit "md";
                   stat := None |})
      (seq 0 200).

(** The three results of the specification's ranking example. *)
Definition resultFor (p : string) (open active : bool) : SearchResult :=
  {| file := note p "md" None; isOpen := open; isActive := active;
     matchIn := MatchPath; snippet := None |}.

Definition activeA : SearchResult := resultFor "a.md" true true.
Definition openB : SearchResult := resultFor "b.md" true false.
Definition plainC : SearchResult := resultFor "c.md" false false.

(* ===================================================================== *)
(** * The workspace, the command and the earlier modal *)
(* ===================================================================== *)

(** [leaf.getViewState()] as far as the plugin reads it: [state] may be
    missing, and [file] is [Some p] when [typeof vs.state.file] is
    ["string"]. *)
Module View.
Record State := { file : option jsstring }.
Record t := { state : option State }.
End View.

(** A leaf of the workspace; [leafId] stands for the identity of the
    object. *)
Record WorkspaceLeaf := { leafId : nat; getViewState : View.t }.

(** [app.workspace]: the leaves in the order of [iterateAllLeaves], the
    leaf made active by [setActiveLeaf], and [getActiveFile()]. *)
Record Workspace := {
  leaves : list WorkspaceLeaf;
  activeLeaf : option nat;
  getActiveFile : option TFile
}.

Record App := { vault : Vault; workspace : Workspace }.

(** [vs.state?.file === p] *)
Definition showsFile (p : jsstring) (leaf : WorkspaceLeaf) : bool :=
  match View.state (getViewState leaf) with
  | Some st => bool_decide (View.file st = Some p)
  | None => false
  end.

Definition getOpenFilePaths (app : App) : gset jsstring :=
  foldl (fun openPaths leaf =>
           match View.state (getViewState leaf) with
           | Some st =>
               match View.file st with
               | Some p => {[ p ]} ∪ openPaths
               | None => openPaths
               end
           | None => openPaths
           end)
        ∅ (leaves (workspace app)).

(** [new FileSearchModal(app, openPaths, index)]: the fields set by the
    constructor. *)
Definition newFileSearchModal (app : App) (openPaths : gset jsstring)
  : FileSearchModal :=
  {| allFiles := getFiles (vault app);
     openFilePaths := openPaths;
     activeFilePath := path <$> getActiveFile (workspace app) |}.

(** The callback of the command ["open-file-search-menu"]. *)
Definition openFileSearchMenu (app : App) : FileSearchModal :=
  newFileSearchModal app (getOpenFilePaths app).

(** [leaf.detach()]: the leaf leaves the workspace. *)
Definition detach (d : WorkspaceLeaf) (ws : Workspace) : Workspace :=
  {| leaves := filter (fun leaf => leafId leaf <> leafId d) (leaves ws);
     activeLeaf := activeLeaf ws;
     getActiveFile := getActiveFile ws |}.

(** [workspace.setActiveLeaf(leaf, { focus: true })] *)
Definition setActiveLeaf (leaf : WorkspaceLeaf) (ws : Workspace) : Workspace :=
  {| leaves := leaves ws;
     activeLeaf := Some (leafId leaf);
     getActiveFile := getActiveFile ws |}.

(** The handler of ["file-open"]: the tab reuse. *)
Definition onFileOpen (file : option TFile) (ws : Workspace) : Workspace :=
  match file with
  | None => ws
  | Some f =>
      let matches :=
        filter (fun leaf => showsFile (path f) leaf = true) (leaves ws) in
      if (1 <? length matches)%nat then
        match matches with
        | first :: dupes => foldl (fun w d => detach d w) (setActiveLeaf first ws) dupes
        | [] => ws
        end
      else ws
  end.

(** The modal of the earlier version of the plugin, which searches paths
    only and returns files. *)
Module Legacy.
Section Host.

Variable toLowerCase : jsstring -> jsstring.

Definition getSuggestions (modal : FileSearchModal) (query : jsstring)
  : list TFile :=
  let q := toLowerCase query in
  let activeMatches :=
    match activeFilePath modal with
    | Some a =>
        if Js.truthy a && Js.includes (toLowerCase a) q
        then filter (fun f => path f = a) (allFiles modal)
        else []
    | None => []
    end in
  let openMatches :=
    filter (fun f => Js.includes (toLowerCase (path f)) q = true)
      (filter (fun f => path f ∈ openFilePaths modal /\
                        Some (path f) <> activeFilePath modal)
         (allFiles modal)) in
  let closedMatches :=
    filter (fun f => Js.includes (toLowerCase (path f)) q = true)
      (filter (fun f => (path f ∉ openFilePaths modal) /\
                        Some (path f) <> activeFilePath modal)
         (allFiles modal)) in
  activeMatches ++ openMatches ++ closedMatches.

End Host.
End Legacy.

(** The group of a file in the earlier modal: the active file, an open
    file, any other file. *)
Definition legacyGroup (modal : FileSearchModal) (f : TFile) : nat :=
  if decide (Some (path f) = activeFilePath modal) then 0%nat
  else if decide (path f ∈ openFilePaths modal) then 1%nat
  else 2%nat.

(** Every whitespace code unit of [s] is a plain space. *)
Definition onlyPlainSpaces (s : jsstring) : Prop :=
  Forall (fun c => Js.isWhiteSpace c = true -> c = Js.space) s.

(** An index whose text holds a tab, a line feed and a carriage return. *)
Definition tabbedIndex : ContentIndex :=
  {| textByPath := {[ Js.lit "t.md" := [97; 9; 10; 98; 13; 99]%N ]};
     building := false |}.

(** The index after a build over the sample vault. *)
Definition builtIndex : ContentIndex :=
  snd (buildInitialIndex Js.asciiLower sampleVault newContentIndex).

(** A modal over the sample vault with [gamma.txt] open and [alpha.md]
    active. *)
Definition sampleModal : FileSearchModal :=
  {| allFiles := getFiles sampleVault;
     openFilePaths := {[ Js.lit "gamma.txt" ]};
     activeFilePath := Some (Js.lit "alpha.md") |}.

Definition leafShowing (id : nat) (p : string) : WorkspaceLeaf :=
  {| leafId := id;
     getViewState := {| View.state := Some {| View.file := Some (Js.lit p) |} |} |}.

Definition emptyLeaf (id : nat) : WorkspaceLeaf :=
  {| leafId := id; getViewState := {| View.state := None |} |}.

(** Five leaves, three of which show [gamma.txt]. *)
Definition sampleWorkspace : Workspace :=
  {| leaves := [leafShowing 1 "gamma.txt"; emptyLeaf 2; leafShowing 3 "alpha.md";
                leafShowing 4 "gamma.txt"; leafShowing 5 "gamma.txt"];
     activeLeaf := Some 3%nat;
     getActiveFile := Some alphaMd |}.

Definition sampleApp : App :=
  {| vault := sampleVault; workspace := sampleWorkspace |}.

Definition gammaByContent : SearchResult :=
  {| file := gammaTxt; isOpen := true; isActive := false;
     matchIn := MatchContent; snippet := Some (Js.lit "gamma rays") |}.

Definition alphaByPath : SearchResult :=
  {| file := alphaMd; isOpen := false; isActive := true;
     matchIn := MatchPath; snippet := None |}.

Definition gammaByPath : SearchResult :=
  {| file := gammaTxt; isOpen := true; isActive := false;
     matchIn := MatchPath; snippet := None |}.

(* ##################################################################### *)
(** * Part II: properties *)
(* ##################################################################### *)

(* ===================================================================== *)
(** * Facts about the string operations *)
(* ===================================================================== *)

Section JsFacts.

Lemma isPrefix_true q s :
  Js.isPrefix q s = true <-> exists post, s = q ++ post.
Proof.
  revert s. induction q as [|a q IH]; intros s; simpl.
  - split; [intros _; by exists s | done].
  - destruct s as [|b s].
    + split; [done | intros [post H]; discriminate].
    + rewrite andb_true_iff, N.eqb_eq, IH. split.
      * intros [-> [post ->]]. by exists post.
      * intros [post H]. injection H as -> ->. eauto.
Qed.

Lemma occursAt_0 text q : occursAt text q 0 <-> Js.isPrefix q text = true.
Proof.
  rewrite isPrefix_true. split.
  - intros (pre & post & -> & Hlen). destruct pre; [|done]. by exists post.
  - intros [post ->]. by exists [], post.
Qed.

Lemma occursAt_S c text q i : occursAt (c :: text) q (S i) <-> occursAt text q i.
Proof.
  split.
  - intros (pre & post & Heq & Hlen). destruct pre as [|c' pre]; [done|].
    simpl in *. injection Heq as -> ->. exists pre, post. split; [done | lia].
  - intros (pre & post & -> & Hlen). exists (c :: pre), post.
    split; [done | simpl; lia].
Qed.

Lemma occursAt_nil q i : occursAt [] q i -> q = [] /\ i = 0%nat.
Proof.
  intros (pre & post & Heq & Hlen). symmetry in Heq.
  apply app_eq_nil in Heq as [-> Heq]. apply app_eq_nil in Heq as [-> _].
  by simpl in Hlen.
Qed.

Lemma occursAt_bound text q i :
  occursAt text q i -> (i + length q <= length text)%nat.
Proof.
  intros (pre & post & -> & <-). rewrite !length_app. lia.
Qed.

Lemma occursAt_take_drop text q i :
  occursAt text q i -> take (length q) (drop i text) = q.
Proof.
  intros (pre & post & -> & <-).
  rewrite drop_app_length. by rewrite take_app_length.
Qed.

Lemma indexOfFrom_spec text q : forall i,
  (Js.indexOfFrom i text q = -1 /\ forall k, ~ occursAt text q k) \/
  (exists k, Js.indexOfFrom i text q = i + Z.of_nat k /\ firstOccurrence text q k).
Proof.
  induction text as [|c rest IH]; intros i; simpl.
  - destruct (Js.isPrefix q []) eqn:Hp.
    + right. exists 0%nat. split; [lia|]. split; [by apply occursAt_0 | lia].
    + left. split; [done|]. intros k Hk.
      destruct (occursAt_nil _ _ Hk) as [-> ->]. by apply occursAt_0 in Hk; congruence.
  - destruct (Js.isPrefix q (c :: rest)) eqn:Hp.
    + right. exists 0%nat. split; [lia|]. split; [by apply occursAt_0 | lia].
    + destruct (IH (i + 1)) as [[Hm Hnone] | (k & Hk & Hocc & Hfirst)].
      * left. split; [done|]. intros [|k] Hk.
        -- apply occursAt_0 in Hk. congruence.
        -- apply occursAt_S in Hk. by apply (Hnone k).
      * right. exists (S k). split; [lia|]. split; [by apply occursAt_S|].
        intros [|j] Hj Hocc'.
        -- apply occursAt_0 in Hocc'. congruence.
        -- apply occursAt_S in Hocc'. apply (Hfirst j); [lia | done].
Qed.

Lemma firstOccurrence_unique text q i j :
  firstOccurrence text q i -> firstOccurrence text q j -> i = j.
Proof.
  intros [Hi Hfi] [Hj Hfj].
  destruct (Nat.lt_trichotomy i j) as [Hlt | [-> | Hlt]]; [|done|].
  - by destruct (Hfj i Hlt).
  - by destruct (Hfi j Hlt).
Qed.

Lemma indexOf_first text q i :
  firstOccurrence text q i -> Js.indexOf text q = Z.of_nat i.
Proof.
  intros Hi. unfold Js.indexOf.
  destruct (indexOfFrom_spec text q 0) as [[_ Hnone] | (k & Hk & Hfirst)].
  - destruct Hi as [Hi _]. by destruct (Hnone i).
  - rewrite Hk. by rewrite (firstOccurrence_unique _ _ _ _ Hi Hfirst).
Qed.

Lemma indexOf_none text q :
  (forall i, ~ occursAt text q i) <-> Js.indexOf text q = -1.
Proof.
  unfold Js.indexOf.
  destruct (indexOfFrom_spec text q 0) as [[Hm Hnone] | (k & Hk & Hocc & _)].
  - done.
  - split; [intros Hnone; by destruct (Hnone k) | lia].
Qed.

Lemma indexOf_occurs text q i :
  Js.indexOf text q = Z.of_nat i -> firstOccurrence text q i.
Proof.
  unfold Js.indexOf. intros Hi.
  destruct (indexOfFrom_spec text q 0) as [[Hm _] | (k & Hk & Hfirst)]; [lia|].
  assert (i = k) as -> by lia. done.
Qed.

Lemma indexOf_range text q :
  Js.indexOf text q = -1 \/ 0 <= Js.indexOf text q.
Proof.
  unfold Js.indexOf.
  destruct (indexOfFrom_spec text q 0) as [[Hm _] | (k & Hk & _)]; lia.
Qed.

Lemma includes_spec text q : Js.includes text q = true <-> isSubstring q text.
Proof.
  unfold Js.includes, isSubstring. rewrite negb_true_iff, Z.eqb_neq. split.
  - intros Hne. destruct (indexOf_range text q) as [|Hge]; [done|].
    exists (Z.to_nat (Js.indexOf text q)).
    apply indexOf_occurs. lia.
  - intros [i Hi] Hm. by apply (proj2 (indexOf_none text q) Hm i).
Qed.

Lemma slice_window (s : jsstring) (a b : Z) :
  0 <= a <= b -> b <= Js.len s ->
  Js.slice s a b = take (Z.to_nat (b - a)) (drop (Z.to_nat a) s).
Proof.
  intros Ha Hb. unfold Js.slice.
  destruct (Z.ltb_spec a 0); [lia|]. destruct (Z.ltb_spec b 0); [lia|].
  by rewrite !Z.min_l by lia.
Qed.

Lemma trimStart_split s :
  exists ws, s = ws ++ Js.trimStart s /\ allWhiteSpace ws /\
             startsClean (Js.trimStart s).
Proof.
  induction s as [|c s (ws & Heq & Hws & Hclean)]; simpl.
  - exists []. repeat split; constructor.
  - destruct (Js.isWhiteSpace c) eqn:Hc.
    + exists (c :: ws). split; [simpl; congruence|].
      split; [by constructor | done].
    + exists []. split; [done|]. split; [constructor | done].
Qed.

Lemma trimStart_length s : (length (Js.trimStart s) <= length s)%nat.
Proof.
  destruct (trimStart_split s) as (ws & Heq & _).
  rewrite Heq at 2. rewrite length_app. lia.
Qed.

Lemma collapseFrom_true s :
  Js.collapseFrom true s = Js.collapseFrom false (Js.trimStart s).
Proof.
  induction s as [|c s IH]; simpl; [done|].
  destruct (Js.isWhiteSpace c) eqn:Hc; [done|]. simpl. by rewrite Hc.
Qed.

Lemma replaceWhiteSpaceRuns_spec s :
  runsCollapsed s (Js.replaceWhiteSpaceRuns s).
Proof.
  unfold Js.replaceWhiteSpaceRuns.
  remember (length s) as n eqn:Hn. revert s Hn.
  induction n as [n IH] using lt_wf_ind. intros s ->.
  destruct s as [|c s]; simpl; [constructor|].
  destruct (Js.isWhiteSpace c) eqn:Hc.
  - rewrite collapseFrom_true.
    destruct (trimStart_split s) as (ws & Heq & Hws & Hclean).
    pose proof (trimStart_length s) as Hlen.
    replace (c :: s) with ((c :: ws) ++ Js.trimStart s)
      by (simpl; congruence).
    apply rc_run; [done | by constructor | done |].
    eapply IH; [|reflexivity]. simpl. lia.
  - apply rc_unit; [done|]. eapply IH; [|reflexivity]. simpl. lia.
Qed.

Lemma startsClean_prefix (t r : jsstring) : startsClean (t ++ r) -> startsClean t.
Proof. by destruct t. Qed.

Lemma allWhiteSpace_rev s : allWhiteSpace s -> allWhiteSpace (rev s).
Proof.
  unfold allWhiteSpace. rewrite !Forall_forall. intros H c Hc.
  apply H. apply list_elem_of_In. apply list_elem_of_In in Hc.
  by apply in_rev.
Qed.

Lemma trim_spec s : trimmedOf s (Js.trim s).
Proof.
  unfold Js.trim, Js.trimEnd.
  destruct (trimStart_split s) as (l & Hs & Hl & Hclean).
  destruct (trimStart_split (rev (Js.trimStart s))) as (r & Hr & Hrws & Hrclean).
  set (u := Js.trimStart s) in *. set (t := Js.trimStart (rev u)) in *.
  assert (u = rev t ++ rev r) as Hu.
  { rewrite <- rev_app_distr, <- Hr. by rewrite rev_involutive. }
  exists l, (rev r). split; [congruence|].
  split; [done|]. split; [by apply allWhiteSpace_rev|].
  split.
  - apply (startsClean_prefix _ (rev r)). by rewrite <- Hu.
  - by rewrite rev_involutive.
Qed.

End JsFacts.

(* ===================================================================== *)
(** * Facts about the index operations *)
(* ===================================================================== *)

Section IndexFacts.

Variable toLowerCase : jsstring -> jsstring.

Lemma indexFileIfEligible_run vault file s :
  indexFileIfEligible toLowerCase vault file s =
  (Normal tt, {| textByPath := upserted toLowerCase vault file (textByPath s);
                 building := building s |}).
Proof.
  unfold indexFileIfEligible, upserted, eligible.
  destruct (bool_decide (extension file ∈ indexExtensions)); simpl; [|done].
  destruct (overSizeLimit file); simpl; [done|].
  unfold tryCatch, bind, await, mapSet, mapDelete.
  by destruct (cachedRead vault file).
Qed.

Lemma forEach_index_run vault files : forall s,
  forEach files (indexFileIfEligible toLowerCase vault) s =
  (Normal tt, {| textByPath := foldl (fun m f => upserted toLowerCase vault f m)
                                     (textByPath s) files;
                 building := building s |}).
Proof.
  induction files as [|f files IH]; intros s; simpl.
  - by destruct s.
  - unfold bind. rewrite indexFileIfEligible_run. by rewrite IH.
Qed.

Lemma buildInitialIndex_run vault s :
  building s = false ->
  buildInitialIndex toLowerCase vault s =
  (Normal tt, {| textByPath := foldl (fun m f => upserted toLowerCase vault f m)
                                     (textByPath s) (getFiles vault);
                 building := false |}).
Proof.
  intros Hb. unfold buildInitialIndex, bind, getBuilding. rewrite Hb.
  unfold setBuilding, tryFinally. by rewrite forEach_index_run.
Qed.

Lemma buildInitialIndex_guard vault s :
  building s = true ->
  buildInitialIndex toLowerCase vault s = (Normal tt, s).
Proof.
  intros Hb. unfold buildInitialIndex, bind, getBuilding. by rewrite Hb.
Qed.

Lemma upserted_other vault file m p :
  p <> path file -> upserted toLowerCase vault file m !! p = m !! p.
Proof.
  intros Hne. unfold upserted.
  destruct (eligible file); [destruct (cachedRead vault file)|];
    by rewrite ?lookup_insert_ne, ?lookup_delete_ne.
Qed.

Lemma upserted_same_ok vault file m raw :
  eligible file = true -> cachedRead vault file = Normal raw ->
  upserted toLowerCase vault file m !! path file = Some (toLowerCase raw).
Proof.
  intros He Hr. unfold upserted. rewrite He, Hr. apply lookup_insert_eq.
Qed.

Lemma upserted_same_fail vault file m :
  eligible file = false \/ cachedRead vault file = Throw ->
  upserted toLowerCase vault file m = delete (path file) m.
Proof.
  unfold upserted. intros [-> | ->]; [done|]. by destruct (eligible file).
Qed.

Lemma foldl_upserted_other vault files : forall m p,
  p ∉ map path files ->
  foldl (fun m f => upserted toLowerCase vault f m) m files !! p = m !! p.
Proof.
  induction files as [|f files IH]; intros m p Hp; simpl; [done|].
  simpl in Hp. apply not_elem_of_cons in Hp as [Hne Hp].
  rewrite IH by done. by apply upserted_other.
Qed.

End IndexFacts.

(* ===================================================================== *)
(** * Snippet extraction *)
(* ===================================================================== *)

(** C4. For a stored text and a non-empty query: when the query first
    occurs at offset [i], [findSnippet] takes the window from
    [max(0, i - 40)] to [min(len(text), i + L + 60)], replaces every run of
    whitespace by one space, trims, puts the ellipsis marker (U+2026 and a
    space) in front exactly when the window start is above 0 and (a space
    and U+2026) behind exactly when the window end is below the text length,
    and returns the offset [i]; when the query does not occur the result is
    absent. *)
Theorem findSnippet_first_occurrence_window
    (s : ContentIndex) (p text query : jsstring) :
  textByPath s !! p = Some text ->
  query <> [] ->
  (forall i : nat,
     firstOccurrence text query i ->
     let start := Z.max 0 (Z.of_nat i - 40) in
     let end_ := Z.min (Js.len text) (Z.of_nat i + Js.len query + 60) in
     let window := take (Z.to_nat (end_ - start)) (drop (Z.to_nat start) text) in
     let collapsed := Js.replaceWhiteSpaceRuns window in
     let clean := Js.trim collapsed in
     runsCollapsed window collapsed /\
     trimmedOf collapsed clean /\
     findSnippet s p query =
       Some {| Found.snippet :=
                 (if 0 <? start then [8230%N; 32%N] else []) ++ clean ++
                 (if end_ <? Js.len text then [32%N; 8230%N] else []);
               Found.at_ := Z.of_nat i |}) /\
  ((forall i : nat, ~ occursAt text query i) -> findSnippet s p query = None).
Proof.
  intros Hlookup Hq. split.
  - intros i Hfirst start end_ window collapsed clean.
    split; [apply replaceWhiteSpaceRuns_spec|].
    split; [apply trim_spec|].
    pose proof (occursAt_bound _ _ _ (proj1 Hfirst)) as Hbound.
    assert (text <> []) as Htext.
    { intros ->. destruct (occursAt_nil _ _ (proj1 Hfirst)). done. }
    unfold findSnippet. rewrite Hlookup.
    destruct text as [|c text']; [done|]. cbn [Js.truthy negb].
    rewrite (indexOf_first _ _ _ Hfirst).
    destruct (Z.eqb_spec (Z.of_nat i) (-1)) as [|_]; [lia|].
    fold start end_.
    assert (0 <= start <= end_ /\ end_ <= Js.len (c :: text')) as [Hse Hel].
    { unfold start, end_, Js.len in *. lia. }
    rewrite (slice_window _ _ _ Hse Hel). fold window collapsed clean.
    f_equal. f_equal.
    destruct (0 <? start), (end_ <? Js.len (c :: text'));
      by rewrite ?app_nil_r, <- ?app_assoc.
  - intros Hnone. unfold findSnippet. rewrite Hlookup.
    destruct (negb (Js.truthy text)); [done|].
    by rewrite (proj1 (indexOf_none text query) Hnone).
Qed.

Lemma findSnippet_first_occurrence_window_witness :
  textByPath sampleIndex !! Js.lit "n.md" = Some sampleText /\
  (Js.lit "beta" <> [] /\
   firstOccurrence sampleText (Js.lit "beta") 6 /\
   findSnippet sampleIndex (Js.lit "n.md") (Js.lit "beta") =
     Some {| Found.snippet :=
               Js.lit "alpha beta gamma delta epsilon zeta eta theta iota kappa lambda mu n"
               ++ [32%N; 8230%N];
             Found.at_ := 6 |}) /\
  (Js.lit "lambda" <> [] /\
   firstOccurrence sampleText (Js.lit "lambda") 59 /\
   findSnippet sampleIndex (Js.lit "n.md") (Js.lit "lambda") =
     Some {| Found.snippet :=
               [8230%N; 32%N] ++
               Js.lit "delta epsilon zeta eta theta iota kappa lambda mu nu xi omicron pi rho sigma tau upsilon phi chi psi omega";
             Found.at_ := 59 |}) /\
  (Js.lit "lambdas" <> [] /\
   (forall i : nat, ~ occursAt sampleText (Js.lit "lambdas") i) /\
   findSnippet sampleIndex (Js.lit "n.md") (Js.lit "lambdas") = None).
Proof.
  assert (textByPath sampleIndex !! Js.lit "n.md" = Some sampleText) as H1
    by reflexivity.
  split; [exact H1|]. split; [|split].
  - assert (Js.lit "beta" <> []) as H2 by discriminate.
    assert (firstOccurrence sampleText (Js.lit "beta") 6) as H3
      by (apply indexOf_occurs; reflexivity).
    split; [exact H2|]. split; [exact H3|].
    destruct (findSnippet_first_occurrence_window
                sampleIndex (Js.lit "n.md") sampleText (Js.lit "beta") H1 H2)
      as [Hfound _].
    destruct (Hfound 6%nat H3) as (_ & _ & ->). reflexivity.
  - assert (Js.lit "lambda" <> []) as H2 by discriminate.
    assert (firstOccurrence sampleText (Js.lit "lambda") 59) as H3
      by (apply indexOf_occurs; reflexivity).
    split; [exact H2|]. split; [exact H3|].
    destruct (findSnippet_first_occurrence_window
                sampleIndex (Js.lit "n.md") sampleText (Js.lit "lambda") H1 H2)
      as [Hfound _].
    destruct (Hfound 59%nat H3) as (_ & _ & ->). reflexivity.
  - assert (Js.lit "lambdas" <> []) as H2 by discriminate.
    assert (forall i : nat, ~ occursAt sampleText (Js.lit "lambdas") i) as H3
      by (apply indexOf_none; reflexivity).
    split; [exact H2|]. split; [exact H3|].
    destruct (findSnippet_first_occurrence_window
                sampleIndex (Js.lit "n.md") sampleText (Js.lit "lambdas") H1 H2)
      as [_ Hnone].
    exact (Hnone H3).
Defined.

(* ===================================================================== *)
(** * Upsert, rename and lookup *)
(* ===================================================================== *)

Section IndexClaims.

Variable toLowerCase : jsstring -> jsstring.

(** C6. When the read of a document fails, [indexFileIfEligible] deletes
    the entry of its path and returns normally; a full build that meets such
    a document returns normally as well, with the guard released, and has
    processed every document that follows it in the catalog. *)
Theorem read_failure_is_swallowed
    (vault : Vault) (s : ContentIndex) (before after : list TFile) (file : TFile) :
  getFiles vault = before ++ file :: after ->
  cachedRead vault file = Throw ->
  building s = false ->
  (forall s0, indexFileIfEligible toLowerCase vault file s0
              = (Normal tt, remove file s0)) /\
  exists s',
    buildInitialIndex toLowerCase vault s = (Normal tt, s') /\
    building s' = false /\
    textByPath s' =
      foldl (fun m f => upserted toLowerCase vault f m)
            (delete (path file)
               (foldl (fun m f => upserted toLowerCase vault f m)
                      (textByPath s) before))
            after /\
    (forall mid g rest raw,
        after = mid ++ g :: rest ->
        eligible g = true ->
        cachedRead vault g = Normal raw ->
        path g ∉ map path rest ->
        textByPath s' !! path g = Some (toLowerCase raw)).
Proof.
  intros Hfiles Hfail Hb. split.
  - intros s0. rewrite indexFileIfEligible_run.
    rewrite upserted_same_fail by (by right). done.
  - eexists. split; [by apply buildInitialIndex_run|]. split; [done|].
    cbn [textByPath]. rewrite Hfiles, foldl_app. cbn [foldl].
    rewrite (upserted_same_fail _ _ file) by (by right).
    split; [done|].
    intros mid g rest raw -> Hg Hread Hfresh.
    rewrite foldl_app. cbn [foldl].
    rewrite foldl_upserted_other by done.
    by apply upserted_same_ok.
Qed.

(** C7. [rename] moves the stored value of [oldPath] to the new path and
    deletes the [oldPath] key, reading nothing: what was found under the old
    path is found under the new one. Without an entry at [oldPath] the state
    is unchanged, and the entries of all other paths are unchanged. *)
Theorem rename_moves_entry
    (s : ContentIndex) (oldPath : jsstring) (newDoc : TFile) :
  (forall v,
      textByPath s !! oldPath = Some v ->
      textByPath (rename oldPath newDoc s)
        = <[path newDoc := v]> (delete oldPath (textByPath s)) /\
      textByPath (rename oldPath newDoc s) !! path newDoc = Some v /\
      (oldPath <> path newDoc ->
       textByPath (rename oldPath newDoc s) !! oldPath = None) /\
      (forall q, findSnippet (rename oldPath newDoc s) (path newDoc) q
                 = findSnippet s oldPath q) /\
      (forall q, contains (rename oldPath newDoc s) (path newDoc) q
                 = contains s oldPath q)) /\
  (textByPath s !! oldPath = None -> rename oldPath newDoc s = s) /\
  (forall p, p <> oldPath -> p <> path newDoc ->
             textByPath (rename oldPath newDoc s) !! p = textByPath s !! p) /\
  building (rename oldPath newDoc s) = building s.
Proof.
  unfold rename. split; [|split; [|split]].
  - intros v Hv. rewrite Hv. cbn [textByPath]. split; [done|].
    split; [apply lookup_insert_eq|]. split; [|split].
    + intros Hne. rewrite lookup_insert_ne by done. apply lookup_delete_eq.
    + intros q. unfold findSnippet. cbn [textByPath].
      by rewrite lookup_insert_eq, Hv.
    + intros q. unfold contains. cbn [textByPath].
      by rewrite lookup_insert_eq, Hv.
  - by intros ->.
  - intros p Hold Hnew. destruct (textByPath s !! oldPath); [|done]. cbn.
    rewrite lookup_insert_ne by done. by rewrite lookup_delete_ne.
  - by destruct (textByPath s !! oldPath).
Qed.

(** [contains] agrees with the substring relation on every stored text when
    the query is not empty. *)
Lemma contains_nonempty_query (s : ContentIndex) (p query : jsstring) :
  query <> [] ->
  contains s p query = true <->
  exists text, textByPath s !! p = Some text /\ isSubstring query text.
Proof.
  intros Hq. unfold contains. destruct (textByPath s !! p) as [text|].
  - rewrite andb_true_iff, includes_spec. split.
    + intros [_ Hsub]. eauto.
    + intros (text' & [= <-] & Hsub). split; [|done].
      destruct text; [|done]. destruct Hsub as [i Hi].
      by destruct (occursAt_nil _ _ Hi).
  - split; [done | by intros (? & ? & _)].
Qed.

(** C8, as amended. [contains] answers [true] exactly when the path has an
    entry whose text is not empty and has the query as a substring; for a
    query that is not empty this is: exactly when the path has an entry
    whose text has the query as a substring. *)
Theorem contains_iff_nonempty_text_has_query
    (s : ContentIndex) (p query : jsstring) :
  (contains s p query = true <->
   exists text, textByPath s !! p = Some text /\ text <> [] /\
                isSubstring query text) /\
  (query <> [] ->
   (contains s p query = true <->
    exists text, textByPath s !! p = Some text /\ isSubstring query text)).
Proof.
  split.
  - unfold contains. destruct (textByPath s !! p) as [text|].
    + rewrite andb_true_iff, includes_spec. split.
      * intros [Htext Hsub]. exists text. split; [done|].
        split; [by destruct text | done].
      * intros (text' & [= <-] & Hne & Hsub). split; [by destruct text | done].
    + split; [done | by intros (? & ? & _)].
  - apply contains_nonempty_query.
Qed.

(** C9. Handling the same create or modify event twice in a row, the read
    giving the same outcome both times, leaves the index as handling it
    once. *)
Theorem upsert_event_idempotent
    (vault : Vault) (file : TAbstractFile) (s : ContentIndex) :
  onModify toLowerCase vault file (snd (onModify toLowerCase vault file s))
    = (Normal tt, snd (onModify toLowerCase vault file s)) /\
  onCreate toLowerCase vault file (snd (onCreate toLowerCase vault file s))
    = (Normal tt, snd (onCreate toLowerCase vault file s)).
Proof.
  destruct file as [f|p]; cbn [onModify onCreate]; [|done].
  rewrite !indexFileIfEligible_run. cbn [snd textByPath building].
  assert (upserted toLowerCase vault f
            (upserted toLowerCase vault f (textByPath s))
          = upserted toLowerCase vault f (textByPath s)) as ->; [|done].
  unfold upserted. destruct (eligible f); [destruct (cachedRead vault f)|].
  - apply insert_insert_eq.
  - apply delete_delete_eq.
  - apply delete_delete_eq.
Qed.

(** C10. A document with an allowed extension whose size is not a number
    passes the size filter: its text is read and stored lowercased, whatever
    its length. *)
Theorem unknown_size_is_indexed
    (vault : Vault) (file : TFile) (raw : jsstring) (s : ContentIndex) :
  extension file ∈ indexExtensions ->
  statSize file = None ->
  cachedRead vault file = Normal raw ->
  overSizeLimit file = false /\
  indexFileIfEligible toLowerCase vault file s =
    (Normal tt, {| textByPath := <[path file := toLowerCase raw]> (textByPath s);
                   building := building s |}).
Proof.
  intros Hext Hsize Hread.
  assert (overSizeLimit file = false) as Hover.
  { unfold overSizeLimit. by rewrite Hsize. }
  split; [done|].
  rewrite indexFileIfEligible_run. unfold upserted, eligible.
  rewrite bool_decide_eq_true_2 by done. by rewrite Hover, Hread.
Qed.

End IndexClaims.

Lemma read_failure_is_swallowed_witness :
  getFiles sampleVault = [alphaMd] ++ brokenMd :: [gammaTxt] /\
  cachedRead sampleVault brokenMd = Throw /\
  building staleIndex = false /\
  indexFileIfEligible Js.asciiLower sampleVault brokenMd staleIndex
    = (Normal tt, remove brokenMd staleIndex) /\
  exists s',
    buildInitialIndex Js.asciiLower sampleVault staleIndex = (Normal tt, s') /\
    building s' = false /\
    textByPath s' !! path gammaTxt = Some (Js.lit "gamma  rays").
Proof.
  assert (getFiles sampleVault = [alphaMd] ++ brokenMd :: [gammaTxt]) as H1
    by reflexivity.
  assert (cachedRead sampleVault brokenMd = Throw) as H2 by reflexivity.
  assert (building staleIndex = false) as H3 by reflexivity.
  destruct (read_failure_is_swallowed Js.asciiLower sampleVault staleIndex
              [alphaMd] [gammaTxt] brokenMd H1 H2 H3)
    as [Hone (s' & Hrun & Hb & _ & Hlater)].
  split; [exact H1|]. split; [exact H2|]. split; [exact H3|].
  split; [apply Hone|].
  exists s'. split; [exact Hrun|]. split; [exact Hb|].
  apply (Hlater [] gammaTxt [] (Js.lit "Gamma  Rays"));
    [reflexivity | reflexivity | reflexivity | by apply not_elem_of_nil].
Defined.

Lemma rename_moves_entry_witness :
  textByPath staleIndex !! Js.lit "broken.md" = Some (Js.lit "stale") /\
  textByPath (rename (Js.lit "broken.md") gammaTxt staleIndex) !! path gammaTxt
    = Some (Js.lit "stale") /\
  textByPath (rename (Js.lit "broken.md") gammaTxt staleIndex)
    !! Js.lit "broken.md" = None /\
  rename (Js.lit "alpha.md") gammaTxt staleIndex = staleIndex.
Proof.
  assert (textByPath staleIndex !! Js.lit "broken.md" = Some (Js.lit "stale"))
    as H1 by reflexivity.
  destruct (rename_moves_entry staleIndex (Js.lit "broken.md") gammaTxt)
    as [Hmove _].
  destruct (Hmove _ H1) as (_ & Hnew & Hold & _).
  destruct (rename_moves_entry staleIndex (Js.lit "alpha.md") gammaTxt)
    as (_ & Hnone & _).
  split; [exact H1|]. split; [exact Hnew|].
  split; [apply Hold; discriminate|].
  apply Hnone. reflexivity.
Defined.

Lemma unknown_size_is_indexed_witness :
  extension unsizedMd ∈ indexExtensions /\
  statSize unsizedMd = None /\
  cachedRead hugeVault unsizedMd = Normal hugeText /\
  maxFileBytes < Js.len hugeText /\
  indexFileIfEligible Js.asciiLower hugeVault unsizedMd newContentIndex =
    (Normal tt,
     {| textByPath := <[path unsizedMd := Js.asciiLower hugeText]> ∅;
        building := false |}).
Proof.
  assert (extension unsizedMd ∈ indexExtensions) as H1 by set_solver.
  assert (statSize unsizedMd = None) as H2 by reflexivity.
  assert (cachedRead hugeVault unsizedMd = Normal hugeText) as H3
    by reflexivity.
  split; [exact H1|]. split; [exact H2|]. split; [exact H3|].
  split.
  - unfold Js.len, hugeText, maxFileBytes. rewrite length_replicate. lia.
  - apply (unknown_size_is_indexed Js.asciiLower hugeVault unsizedMd hugeText
             newContentIndex H1 H2 H3).
Defined.

(** C8 as stated fails at an empty note: after indexing a readable empty
    [md] file the entry exists and the empty query is a substring of its
    text, yet [contains] answers [false]. *)
Lemma contains_misses_empty_text :
  let s := snd (indexFileIfEligible Js.asciiLower emptyVault emptyMd
                  newContentIndex) in
  textByPath s !! path emptyMd = Some [] /\
  isSubstring [] [] /\
  contains s (path emptyMd) [] = false.
Proof.
  split; [reflexivity|]. split; [|reflexivity].
  exists 0%nat, [], []. done.
Qed.

(* ===================================================================== *)
(** * The single-flight guard *)
(* ===================================================================== *)

Section InterleavingFacts.

Variable toLowerCase : jsstring -> jsstring.

Lemma onModify_building vault file s :
  building (snd (onModify toLowerCase vault file s)) = building s.
Proof.
  destruct file; cbn; [|done]. by rewrite indexFileIfEligible_run.
Qed.

Lemma onCreate_building vault file s :
  building (snd (onCreate toLowerCase vault file s)) = building s.
Proof.
  destruct file; cbn; [|done]. by rewrite indexFileIfEligible_run.
Qed.

Lemma onDelete_building file s : building (onDelete file s) = building s.
Proof. by destruct file. Qed.

Lemma onRename_building file oldPath s :
  building (onRename file oldPath s) = building s.
Proof.
  destruct file; cbn; [|done]. unfold rename.
  by destruct (textByPath s !! oldPath).
Qed.

Lemma exec_singleFlight p a : singleFlight p -> singleFlight (exec toLowerCase p a).
Proof.
  unfold singleFlight. intros Hp. destruct a as [v|k v|v f|v f|f|f old]; cbn.
  - unfold callBuild.
    destruct Hp as [[Hb Hr]|[Hb Hr]]; rewrite Hb; [|by right].
    right. cbn. by rewrite Hr.
  - unfold resumeBuild.
    destruct (running p !! k) as [t|] eqn:Hk; [|exact Hp].
    destruct Hp as [[Hb Hr]|[Hb Hr]]; [by rewrite Hr in Hk|].
    assert (length (delete k (running p)) = 0%nat) as Hdel.
    { rewrite length_delete by (by exists t). lia. }
    apply nil_length_inv in Hdel.
    destruct (files t !! next t) as [f|].
    + rewrite indexFileIfEligible_run. cbn.
      right. by rewrite length_insert.
    + left. cbn. by rewrite Hdel.
  - rewrite onModify_building. done.
  - rewrite onCreate_building. done.
  - rewrite onDelete_building. done.
  - rewrite onRename_building. done.
Qed.

Lemma execAll_singleFlight actions : singleFlight (execAll toLowerCase actions).
Proof.
  unfold execAll. induction actions as [|a actions IH] using rev_ind.
  - by left.
  - rewrite foldl_app. cbn. by apply exec_singleFlight.
Qed.

(** C5. In every state the plugin reaches, at most one build is in flight,
    and while one is, a further call of [buildInitialIndex] changes neither
    the index map nor the set of builds in flight. *)
Theorem build_is_single_flight (actions : list Action) :
  let p := execAll toLowerCase actions in
  (length (running p) <= 1)%nat /\
  (building (index p) = true <-> running p <> []) /\
  (forall vault,
      running p <> [] ->
      exec toLowerCase p (CallBuild vault) = p /\
      buildInitialIndex toLowerCase vault (index p) = (Normal tt, index p)).
Proof.
  intros p. pose proof (execAll_singleFlight actions) as Hp. fold p in Hp.
  assert (building (index p) = true <-> running p <> []) as Hiff.
  { destruct Hp as [[Hb Hr]|[Hb Hr]]; rewrite Hb.
    - by rewrite Hr.
    - split; [|done]. intros _ Hnil. by rewrite Hnil in Hr. }
  split; [destruct Hp as [[_ ->]|[_ ->]]; cbn; lia|].
  split; [done|].
  intros vault Hrun. apply Hiff in Hrun. split.
  - cbn. unfold callBuild. by rewrite Hrun.
  - by apply buildInitialIndex_guard.
Qed.

End InterleavingFacts.

Lemma build_is_single_flight_witness :
  let p := execAll Js.asciiLower
             [CallBuild sampleVault; ResumeBuild 0 sampleVault] in
  running p <> [] /\
  exec Js.asciiLower p (CallBuild emptyVault) = p /\
  length (running (exec Js.asciiLower p (CallBuild emptyVault))) = 1%nat.
Proof.
  intros p.
  destruct (build_is_single_flight Js.asciiLower
              [CallBuild sampleVault; ResumeBuild 0 sampleVault])
    as (_ & _ & Hdrop).
  assert (running p <> []) as Hrun by discriminate.
  destruct (Hdrop emptyVault Hrun) as [Hsame _].
  split; [exact Hrun|]. split; [exact Hsame|].
  fold p in Hsame. rewrite Hsame. reflexivity.
Defined.

(* ===================================================================== *)
(** * Sorting with a comparator *)
(* ===================================================================== *)

Section SortFacts.

Context {A : Type} (cmp : A -> A -> Z).

Lemma insertBy_Permutation x l : Js.insertBy cmp x l ≡ₚ x :: l.
Proof.
  induction l as [|y l IH]; simpl; [done|].
  destruct (cmp x y <=? 0); [done|]. rewrite IH. apply Permutation_swap.
Qed.

Lemma sort_Permutation l : Js.sort cmp l ≡ₚ l.
Proof.
  induction l as [|x l IH]; simpl; [done|].
  rewrite insertBy_Permutation. by rewrite IH.
Qed.

Lemma sort_length l : length (Js.sort cmp l) = length l.
Proof. by rewrite sort_Permutation. Qed.

Hypothesis Hcmp : consistent cmp.

Lemma insertBy_sorted x l :
  StronglySorted (fun a b => cmp a b <= 0) l ->
  StronglySorted (fun a b => cmp a b <= 0) (Js.insertBy cmp x l).
Proof.
  destruct Hcmp as [Hflip Htrans].
  induction l as [|y l IH]; intros Hl; simpl.
  - repeat constructor.
  - apply StronglySorted_cons in Hl as [Hy Hl].
    destruct (Z.leb_spec (cmp x y) 0) as [Hle|Hgt].
    + apply StronglySorted_cons. split.
      * constructor; [done|]. eapply Forall_impl; [exact Hy|].
        intros z Hz. cbn in Hz. eauto.
      * by apply StronglySorted_cons.
    + apply StronglySorted_cons. split; [|by apply IH].
      rewrite insertBy_Permutation. constructor; [|done].
      apply Hflip. lia.
Qed.

Lemma sort_sorted l : StronglySorted (fun a b => cmp a b <= 0) (Js.sort cmp l).
Proof.
  induction l as [|x l IH]; simpl; [constructor | by apply insertBy_sorted].
Qed.

End SortFacts.

Section Comparators.

Context {A : Type}.

Lemma byKey_consistent (key : A -> Z) : consistent (byKey key).
Proof. unfold consistent, byKey. split; intros; lia. Qed.

Lemma consistent_on {B} (f : A -> B) (cmp : B -> B -> Z) :
  consistent cmp -> consistent (fun a b => cmp (f a) (f b)).
Proof. intros [Hflip Htrans]. split; eauto. Qed.

Lemma consistent_zero_sym (cmp : A -> A -> Z) a b :
  consistent cmp -> cmp a b = 0 -> cmp b a = 0.
Proof.
  intros [Hflip _] H0.
  pose proof (proj1 (Hflip a b)). pose proof (proj2 (Hflip b a)). lia.
Qed.

Lemma thenBy_consistent (c1 c2 : A -> A -> Z) :
  consistent c1 -> consistent c2 -> consistent (thenBy c1 c2).
Proof.
  intros H1 H2. pose proof H1 as [Hflip1 Htrans1].
  pose proof H2 as [Hflip2 Htrans2].
  assert (forall a b, c1 a b = 0 -> c1 b a = 0) as Hsym
    by (intros; by apply consistent_zero_sym).
  unfold thenBy. split.
  - intros a b.
    destruct (Z.eqb_spec (c1 a b) 0) as [Hab|Hab];
      destruct (Z.eqb_spec (c1 b a) 0) as [Hba|Hba].
    + apply Hflip2.
    + by apply Hsym in Hab.
    + by apply Hsym in Hba.
    + apply Hflip1.
  - intros a b c.
    destruct (Z.eqb_spec (c1 a b) 0) as [Hab|Hab];
      destruct (Z.eqb_spec (c1 b c) 0) as [Hbc|Hbc];
      destruct (Z.eqb_spec (c1 a c) 0) as [Hac|Hac]; intros Hle1 Hle2.
    + eauto.
    + apply (Htrans1 a b c); lia.
    + (* a ~ b, b < c, a ~ c: then c <= b through a *)
      assert (c1 c b <= 0) by (apply (Htrans1 c a b); [apply Hsym in Hac|]; lia).
      pose proof (proj1 (Hflip1 c b)). lia.
    + apply (Htrans1 a b c); lia.
    + assert (c1 b a <= 0)
        by (apply (Htrans1 b c a); [|apply Hsym in Hac]; lia).
      pose proof (proj1 (Hflip1 b a)). lia.
    + apply (Htrans1 a b c); lia.
    + assert (c1 b a <= 0)
        by (apply (Htrans1 b c a); [|apply Hsym in Hac]; lia).
      pose proof (proj1 (Hflip1 b a)). lia.
    + apply (Htrans1 a b c); lia.
Qed.

End Comparators.

(* ===================================================================== *)
(** * The ranking *)
(* ===================================================================== *)

Section RankFacts.

Lemma codeUnitCompare_range a b :
  Js.codeUnitCompare a b = -1 \/ Js.codeUnitCompare a b = 0 \/
  Js.codeUnitCompare a b = 1.
Proof.
  revert b. induction a as [|x a IH]; intros [|y b]; simpl; auto.
  destruct (x <? y)%N; [auto|]. destruct (y <? x)%N; auto.
Qed.

Lemma codeUnitCompare_lt a b : Js.codeUnitCompare a b < 0 <-> lexico a b.
Proof.
  revert b. induction a as [|x a IH]; intros [|y b]; simpl.
  - split; [lia | done].
  - split; [done | lia].
  - split; [lia | done].
  - unfold lexico at 1; simpl. unfold lexico at 1, prod_lexico; simpl.
    unfold lexico at 1, N_lexico.
    destruct (N.ltb_spec x y) as [Hxy|Hxy].
    { split; [by left | lia]. }
    destruct (N.ltb_spec y x) as [Hyx|Hyx].
    { split; [lia|]. intros [?|[-> _]]; lia. }
    assert (x = y) as -> by lia. rewrite IH.
    split; [by right | intros [?|[_ ?]]; [lia | done]].
Qed.

Lemma codeUnitCompare_eq a b : Js.codeUnitCompare a b = 0 <-> a = b.
Proof.
  revert b. induction a as [|x a IH]; intros [|y b]; simpl; try done.
  destruct (N.ltb_spec x y) as [Hxy|Hxy]; [split; [lia | intros [= -> _]; lia]|].
  destruct (N.ltb_spec y x) as [Hyx|Hyx]; [split; [lia | intros [= -> _]; lia]|].
  assert (x = y) as -> by lia. rewrite IH. split; [by intros -> | by intros [= ->]].
Qed.

Lemma codeUnitCompare_flip a b :
  Js.codeUnitCompare a b = - Js.codeUnitCompare b a.
Proof.
  revert b. induction a as [|x a IH]; intros [|y b]; simpl; try done.
  destruct (N.ltb_spec x y), (N.ltb_spec y x); try lia. apply IH.
Qed.

Lemma codeUnitCompare_trans a b c :
  Js.codeUnitCompare a b <= 0 -> Js.codeUnitCompare b c <= 0 ->
  Js.codeUnitCompare a c <= 0.
Proof.
  revert b c. induction a as [|x a IH]; intros [|y b] [|z c]; simpl; try lia.
  destruct (N.ltb_spec x y), (N.ltb_spec y x), (N.ltb_spec y z),
    (N.ltb_spec z y), (N.ltb_spec x z), (N.ltb_spec z x); try lia.
  apply IH.
Qed.

Lemma codeUnitCompare_consistent : consistent Js.codeUnitCompare.
Proof.
  split.
  - intros a b. rewrite (codeUnitCompare_flip b a). lia.
  - apply codeUnitCompare_trans.
Qed.

Lemma caselessCompare_consistent : consistent Js.caselessCompare.
Proof.
  apply (consistent_on Js.asciiLower Js.codeUnitCompare),
    codeUnitCompare_consistent.
Qed.

Lemma compareResults_thenBy localeCompare a b :
  compareResults localeCompare a b =
  thenBy (byKey activeKey)
    (thenBy (byKey openKey)
       (thenBy (byKey matchKey)
          (thenBy (byKey lengthKey)
             (fun a b => localeCompare (path (file a)) (path (file b))))))
    a b.
Proof.
  unfold compareResults, thenBy, byKey, activeKey, openKey, matchKey, lengthKey.
  generalize (localeCompare (path (file a)) (path (file b))).
  generalize (Js.len (path (file a))) (Js.len (path (file b))).
  intros la lb lc.
  destruct (isActive a), (isActive b), (isOpen a), (isOpen b),
    (matchIn a), (matchIn b); cbn; try done;
    destruct (Z.eqb_spec la lb) as [Heq|Hne],
      (Z.eqb_spec (la - lb) 0) as [H0|H0]; cbn; try lia; done.
Qed.

Lemma compareResults_consistent localeCompare :
  consistent localeCompare -> consistent (compareResults localeCompare).
Proof.
  intros Hlc.
  assert (consistent
    (thenBy (byKey activeKey)
       (thenBy (byKey openKey)
          (thenBy (byKey matchKey)
             (thenBy (byKey lengthKey)
                (fun a b => localeCompare (path (file a)) (path (file b)))))))) as H.
  { repeat apply thenBy_consistent; try apply byKey_consistent.
    by apply (consistent_on (fun r => path (file r))). }
  destruct H as [Hflip Htrans]. split.
  - intros a b. rewrite !compareResults_thenBy. apply Hflip.
  - intros a b c. rewrite !compareResults_thenBy. apply Htrans.
Qed.

Lemma compareResults_lt localeCompare a b :
  compareResults localeCompare a b < 0 <-> precedesBy localeCompare a b.
Proof.
  unfold compareResults, precedesBy, Js.len.
  generalize (localeCompare (path (file a)) (path (file b))). intros lc.
  destruct (isActive a), (isActive b), (isOpen a), (isOpen b),
    (matchIn a), (matchIn b); cbn;
    try (destruct (Z.eqb_spec (Z.of_nat (length (path (file a))))
                              (Z.of_nat (length (path (file b))))); cbn);
    intuition (first [congruence | lia]).
Qed.

Lemma compareResults_eq localeCompare a b :
  compareResults localeCompare a b = 0 <-> sameRankBy localeCompare a b.
Proof.
  unfold compareResults, sameRankBy, Js.len.
  generalize (localeCompare (path (file a)) (path (file b))). intros lc.
  destruct (isActive a), (isActive b), (isOpen a), (isOpen b),
    (matchIn a), (matchIn b); cbn;
    try (destruct (Z.eqb_spec (Z.of_nat (length (path (file a))))
                              (Z.of_nat (length (path (file b))))); cbn);
    intuition (first [congruence | lia]).
Qed.

Lemma compareResults_le localeCompare a b :
  compareResults localeCompare a b <= 0 <-> notAfterBy localeCompare a b.
Proof.
  unfold notAfterBy. rewrite <- compareResults_lt, <- compareResults_eq. lia.
Qed.

(** The first key alone decides between an active and an inactive result,
    whatever the comparison of paths is. *)
Lemma compareResults_active localeCompare a b :
  isActive a = true -> isActive b = false ->
  compareResults localeCompare a b = -1 /\ compareResults localeCompare b a = 1.
Proof. unfold compareResults. by intros -> ->. Qed.

(** With the comparison of code units the fifth key is the lexicographic
    order the specification names. *)
Lemma precedesBy_codeUnit a b : precedesBy Js.codeUnitCompare a b <-> precedes a b.
Proof.
  unfold precedesBy, precedes.
  by rewrite (codeUnitCompare_lt (path (file a)) (path (file b))).
Qed.

Lemma sameRankBy_codeUnit a b : sameRankBy Js.codeUnitCompare a b <-> sameRank a b.
Proof.
  unfold sameRankBy, sameRank.
  rewrite (codeUnitCompare_eq (path (file a)) (path (file b))).
  split; [tauto|]. intros (? & ? & ? & Hp). rewrite Hp. tauto.
Qed.

Lemma notAfterBy_codeUnit a b : notAfterBy Js.codeUnitCompare a b <-> notAfter a b.
Proof.
  unfold notAfterBy, notAfter. by rewrite precedesBy_codeUnit, sameRankBy_codeUnit.
Qed.

End RankFacts.

Section RankClaim.

Lemma StronglySorted_weaken {A} (R1 R2 : relation A) l :
  (forall a b, R1 a b -> R2 a b) ->
  StronglySorted R1 l -> StronglySorted R2 l.
Proof.
  intros HR. induction 1 as [|x l Hl IH Hx]; constructor; [done|].
  eapply Forall_impl; [exact Hx | auto].
Qed.

Lemma NoDup_map_inj {A B} (f : A -> B) l x y :
  NoDup (map f l) -> x ∈ l -> y ∈ l -> f x = f y -> x = y.
Proof.
  induction l as [|z l IH]; simpl; intros Hnd Hx Hy Hf; [by inv Hx|].
  apply NoDup_cons in Hnd as [Hz Hnd].
  assert (forall w, w ∈ l -> f w <> f z) as Hfresh.
  { intros w Hw Heq. apply Hz. rewrite <- Heq.
    apply list_elem_of_In, in_map, list_elem_of_In, Hw. }
  apply elem_of_cons in Hx as [->|Hx]; apply elem_of_cons in Hy as [->|Hy].
  - done.
  - symmetry in Hf. by destruct (Hfresh y Hy).
  - by destruct (Hfresh x Hx).
  - by apply IH.
Qed.


End RankClaim.




(* ===================================================================== *)
(** * The history of an index and its entries *)
(* ===================================================================== *)

Section HistoryFacts.

Variable toLowerCase : jsstring -> jsstring.

Lemma upserted_lookup vault f m :
  upserted toLowerCase vault f m !! path f = observed toLowerCase vault f.
Proof.
  unfold upserted, observed.
  destruct (eligible f); [destruct (cachedRead vault f)|];
    by rewrite ?lookup_insert_eq, ?lookup_delete_eq.
Qed.

Lemma eligible_passedFilters f : eligible f = true <-> passedFilters f.
Proof.
  unfold eligible, passedFilters, overSizeLimit.
  rewrite andb_true_iff, bool_decide_eq_true, negb_true_iff.
  apply and_iff_compat_l.
  destruct (statSize f) as [n|]; [|done].
  destruct (Z.ltb_spec maxFileBytes n); split; try done.
  - intros Hn. specialize (Hn n eq_refl). lia.
  - intros _ n' [= <-]. lia.
Qed.

Lemma indexFileStart_run f s :
  indexFileStart f s =
  if eligible f then (Normal true, s) else (Normal false, remove f s).
Proof.
  unfold indexFileStart, eligible.
  destruct (bool_decide (extension f ∈ indexExtensions)); cbn; [|done].
  by destruct (overSizeLimit f).
Qed.

Lemma indexFileSettle_run f r s :
  snd (indexFileSettle toLowerCase f r s) =
  match r with
  | Normal raw =>
      {| textByPath := <[path f := toLowerCase raw]> (textByPath s);
         building := building s |}
  | Throw => remove f s
  end.
Proof. by destruct r. Qed.

(** The call and the settling of its read, run back to back with the
    outcome the vault gives, are [indexFileIfEligible]. *)
Lemma indexFileIfEligible_split vault f s :
  indexFileIfEligible toLowerCase vault f s =
  (indexFileStart f >>= fun started =>
   if started then indexFileSettle toLowerCase f (cachedRead vault f)
   else ret tt) s.
Proof.
  unfold indexFileIfEligible, indexFileStart, bind.
  destruct (bool_decide (extension f ∈ indexExtensions)); cbn; [|done].
  by destruct (overSizeLimit f).
Qed.

(** A read that settles at once, before any other turn, gives the fused
    step of [exec]. *)
Lemma turn_observe_settle l vault f :
  store (if eligible f
         then turn toLowerCase (turn toLowerCase l (Observes f))
                (Settles (length (reads l)) f (cachedRead vault f))
         else turn toLowerCase l (Observes f))
  = snd (indexFileIfEligible toLowerCase vault f (store l)).
Proof.
  rewrite indexFileIfEligible_split. unfold bind. cbn [turn].
  rewrite indexFileStart_run. destruct (eligible f); [|done].
  cbn [store reads]. by rewrite list_lookup_middle.
Qed.

Lemma turns_snoc ts t :
  turns toLowerCase (ts ++ [t]) = turn toLowerCase (turns toLowerCase ts) t.
Proof. unfold turns. by rewrite foldl_app. Qed.

Lemma logFrom_snoc ts t : forall l,
  logFrom toLowerCase l (ts ++ [t]) =
  logFrom toLowerCase l ts ++
  match opOfTurn (foldl (turn toLowerCase) l ts) t with
  | Some op => [op]
  | None => []
  end.
Proof.
  induction ts as [|t' ts IH]; intros l; cbn.
  - by destruct (opOfTurn l t).
  - rewrite IH. by destruct (opOfTurn l t').
Qed.

Lemma lastOp_snoc P ops op :
  lastOp P (ops ++ [op]) = if namesOp P op then Some op else lastOp P ops.
Proof.
  induction ops as [|o ops IH]; cbn.
  - by destruct (namesOp P op).
  - rewrite IH. by destruct (namesOp P op).
Qed.

Lemma lastOp_names P ops op : lastOp P ops = Some op -> namesOp P op = true.
Proof.
  induction ops as [|o ops IH]; cbn; [done|].
  destruct (lastOp P ops); [by intros [= ->]; apply IH|].
  destruct (namesOp P o) eqn:Hn; [by intros [= <-] | done].
Qed.

(** A turn that makes no write leaves the map as it is. *)
Lemma turn_silent l t :
  opOfTurn l t = None ->
  textByPath (store (turn toLowerCase l t)) = textByPath (store l).
Proof.
  destruct t as [f|k now r|f|f old|b]; cbn.
  - rewrite indexFileStart_run. by destruct (eligible f).
  - by destruct (reads l !! k).
  - done.
  - unfold rename. by destruct (textByPath (store l) !! old).
  - done.
Qed.

(** A write changes nothing at a path it does not name. *)
Lemma turn_frame l t op P :
  opOfTurn l t = Some op -> namesOp P op = false ->
  textByPath (store (turn toLowerCase l t)) !! P = textByPath (store l) !! P.
Proof.
  destruct t as [f|k now r|f|f old|b]; cbn.
  - rewrite indexFileStart_run. destruct (eligible f); [done|].
    intros [= <-] Hn%bool_decide_eq_false. by apply lookup_delete_ne.
  - destruct (reads l !! k) as [f|]; [|done].
    intros [= <-] Hn%bool_decide_eq_false. rewrite indexFileSettle_run.
    destruct r; cbn; [by apply lookup_insert_ne | by apply lookup_delete_ne].
  - intros [= <-] Hn%bool_decide_eq_false. by apply lookup_delete_ne.
  - unfold rename. destruct (textByPath (store l) !! old); [|done].
    intros [= <-] [Ho%bool_decide_eq_false Hn%bool_decide_eq_false]%orb_false_iff.
    cbn. rewrite lookup_insert_ne by done. by apply lookup_delete_ne.
  - done.
Qed.

(** At a path it names, a write leaves an entry exactly when it is the
    landing of a successful read or a move to the path; the landing of a
    read leaves the lowercased text. *)
Lemma turn_named l t op P :
  opOfTurn l t = Some op -> namesOp P op = true ->
  (is_Some (textByPath (store (turn toLowerCase l t)) !! P)
   <-> leavesEntry P op) /\
  (forall f now raw, op = Landed f now (Normal raw) ->
     textByPath (store (turn toLowerCase l t)) !! P = Some (toLowerCase raw)).
Proof.
  destruct t as [f|k now r|f|f old|b]; cbn.
  - rewrite indexFileStart_run. destruct (eligible f); [done|].
    intros [= <-] <-%bool_decide_eq_true. cbn. rewrite lookup_delete_eq.
    split; [|done]. split; [by intros [? ?] | done].
  - destruct (reads l !! k) as [f|]; [|done].
    intros [= <-] <-%bool_decide_eq_true. rewrite indexFileSettle_run.
    destruct r as [raw|]; cbn.
    + rewrite lookup_insert_eq. split; [by split; eauto|].
      by intros f' now' raw' [= _ _ ->].
    + rewrite lookup_delete_eq. split; [|done].
      split; [by intros [? ?] | done].
  - intros [= <-] <-%bool_decide_eq_true. cbn. rewrite lookup_delete_eq.
    split; [|done]. split; [by intros [? ?] | done].
  - unfold rename. destruct (textByPath (store l) !! old) as [v|]; [|done].
    intros [= <-] Hn. cbn. split; [|done].
    destruct (decide (path f = P)) as [<-|Hne].
    + rewrite lookup_insert_eq. by split; eauto.
    + rewrite lookup_insert_ne by done.
      apply orb_true_iff in Hn as [<-%bool_decide_eq_true|?%bool_decide_eq_true];
        [|done].
      rewrite lookup_delete_eq. split; [by intros [? ?] | done].
  - done.
Qed.

(** The calls suspended on a read passed both filters. *)
Lemma turns_reads ts : Forall passedFilters (reads (turns toLowerCase ts)).
Proof.
  induction ts as [|t ts IH] using rev_ind; [constructor|].
  rewrite turns_snoc. set (l := turns toLowerCase ts) in *.
  destruct t as [f|k now r|f|f old|b]; cbn; try done.
  - rewrite indexFileStart_run. destruct (eligible f) eqn:He; [|done].
    cbn. apply Forall_app. split; [done|].
    constructor; [by apply eligible_passedFilters | constructor].
  - destruct (reads l !! k); [|done]. cbn. by apply Forall_delete.
Qed.

Lemma log_snoc_elem_of ts t op :
  op ∈ log toLowerCase (ts ++ [t]) <->
  op ∈ log toLowerCase ts \/ opOfTurn (turns toLowerCase ts) t = Some op.
Proof.
  unfold log. rewrite logFrom_snoc, elem_of_app.
  apply or_iff_compat_l. fold (turns toLowerCase ts).
  destruct (opOfTurn (turns toLowerCase ts) t) as [op'|].
  - rewrite list_elem_of_singleton. split; [by intros -> | by intros [= ->]].
  - split; [by intros ?%elem_of_nil | done].
Qed.

Lemma log_Landed ts f now r :
  Landed f now r ∈ log toLowerCase ts -> passedFilters f.
Proof.
  induction ts as [|t ts IH] using rev_ind; [by intros ?%elem_of_nil|].
  intros [Hin|Hop]%log_snoc_elem_of; [by apply IH|].
  destruct t as [f'|k now' r'|f'|f' old|b]; cbn in Hop.
  - by destruct (eligible f').
  - destruct (reads (turns toLowerCase ts) !! k) as [f'|] eqn:Hk; [|done].
    injection Hop as -> -> ->.
    eapply Forall_forall; [apply turns_reads|].
    by eapply list_elem_of_lookup_2.
  - done.
  - by destruct (textByPath (store (turns toLowerCase ts)) !! old).
  - done.
Qed.

Lemma log_Rejected ts f : Rejected f ∈ log toLowerCase ts -> ~ passedFilters f.
Proof.
  induction ts as [|t ts IH] using rev_ind; [by intros ?%elem_of_nil|].
  intros [Hin|Hop]%log_snoc_elem_of; [by apply IH|].
  destruct t as [f'|k now' r'|f'|f' old|b]; cbn in Hop.
  - destruct (eligible f') eqn:He; [done|]. injection Hop as ->.
    intros Hp%eligible_passedFilters. congruence.
  - by destruct (reads (turns toLowerCase ts) !! k).
  - done.
  - by destruct (textByPath (store (turns toLowerCase ts)) !! old).
  - done.
Qed.

(** The entry at a path is what the last write that names it left. *)
Lemma turns_lastOp ts P :
  match lastOp P (log toLowerCase ts) with
  | None => textByPath (store (turns toLowerCase ts)) !! P = None
  | Some op =>
      (is_Some (textByPath (store (turns toLowerCase ts)) !! P)
       <-> leavesEntry P op) /\
      (forall f now raw, op = Landed f now (Normal raw) ->
         textByPath (store (turns toLowerCase ts)) !! P
         = Some (toLowerCase raw))
  end.
Proof.
  induction ts as [|t ts IH] using rev_ind; [done|].
  unfold log in *. rewrite logFrom_snoc, turns_snoc.
  fold (turns toLowerCase ts).
  destruct (opOfTurn (turns toLowerCase ts) t) as [op|] eqn:Hop.
  - rewrite lastOp_snoc. destruct (namesOp P op) eqn:Hn.
    + by apply turn_named.
    + by rewrite (turn_frame _ _ _ _ Hop Hn).
  - by rewrite app_nil_r, (turn_silent _ _ Hop).
Qed.

End HistoryFacts.

(* ===================================================================== *)
(** * Search results and the index *)
(* ===================================================================== *)

Section SearchFacts.

Variable toLowerCase : jsstring -> jsstring.
Variable localeCompare : jsstring -> jsstring -> Z.

Lemma findSnippet_Some_entry s p q sn :
  findSnippet s p q = Some sn -> is_Some (textByPath s !! p).
Proof. unfold findSnippet. by destruct (textByPath s !! p). Qed.

Lemma findSnippet_found s p q text :
  textByPath s !! p = Some text -> q <> [] -> isSubstring q text ->
  is_Some (findSnippet s p q).
Proof.
  intros Hlookup Hq [i Hi]. unfold findSnippet. rewrite Hlookup.
  destruct text as [|c text]; [by destruct (occursAt_nil _ _ Hi)|].
  cbn [Js.truthy negb].
  destruct (Z.eqb_spec (Js.indexOf (c :: text) q) (-1)) as [Hm|_];
    [|by eexists].
  by destruct (proj2 (indexOf_none _ _) Hm i).
Qed.

Lemma suggestionFor_content modal s q sc f r :
  suggestionFor toLowerCase modal s q sc f = Some r ->
  matchIn r = MatchContent ->
  file r = f /\ sc = true /\
  exists sn, findSnippet s (path f) q = Some sn /\
             snippet r = Some (Found.snippet sn).
Proof.
  unfold suggestionFor.
  destruct (Js.includes (toLowerCase (path f)) q); cbn.
  { by intros [= <-]. }
  destruct sc; cbn; [|done].
  destruct (findSnippet s (path f) q) as [sn|]; cbn; [|done].
  intros [= <-] _. cbn. eauto.
Qed.

Lemma suggestionFor_file modal s q sc f r :
  suggestionFor toLowerCase modal s q sc f = Some r -> file r = f.
Proof.
  unfold suggestionFor.
  destruct (negb (Js.includes (toLowerCase (path f)) q) && negb _); [done|].
  by intros [= <-].
Qed.

Lemma rank_elem_of results r : r ∈ rank localeCompare results -> r ∈ results.
Proof.
  unfold rank. intros Hr%subseteq_take.
  by rewrite sort_Permutation in Hr.
Qed.

Lemma rank_small results :
  (length results <= 200)%nat -> rank localeCompare results = Js.sort (compareResults localeCompare)
      results.
Proof.
  intros Hlen. unfold rank. apply firstn_all2. by rewrite sort_length.
Qed.

Lemma getSuggestions_elem_of modal s query r :
  r ∈ getSuggestions toLowerCase localeCompare modal s query ->
  exists f, f ∈ allFiles modal /\
            suggestionFor toLowerCase modal s (toLowerCase (Js.trim query))
              (3 <=? Js.len (toLowerCase (Js.trim query))) f = Some r.
Proof.
  unfold getSuggestions.
  destruct (negb (Js.truthy (toLowerCase (Js.trim query)))).
  { by intros ?%elem_of_nil. }
  intros Hr%rank_elem_of. unfold candidates in Hr.
  by apply list_elem_of_omap in Hr.
Qed.

(** A content match is backed by an entry of the index. *)
Lemma content_match_has_entry modal s query r :
  r ∈ getSuggestions toLowerCase localeCompare modal s query ->
  matchIn r = MatchContent ->
  is_Some (textByPath s !! path (file r)).
Proof.
  intros (f & _ & Hf)%getSuggestions_elem_of Hkind.
  destruct (suggestionFor_content _ _ _ _ _ _ Hf Hkind)
    as (-> & _ & sn & Hsn & _).
  by eapply findSnippet_Some_entry.
Qed.

End SearchFacts.

Section SearchClaims.

Variable toLowerCase : jsstring -> jsstring.
Variable localeCompare : jsstring -> jsstring -> Z.

(** C1, as amended. For every state the plugin reaches and every path [P]:
    [P] has an entry exactly when the most recent write to the map that
    names [P], in the order in which the writes land, is the landing of a
    read that succeeded or a rename to [P] of a path that had an entry.
    After the landing of a successful read the entry is the lowercased text
    that was read. A read lands only for a file whose extension was allowed
    and whose size was not a number above [maxFileBytes] when it was
    observed, and an observation is rejected only for a file that fails one
    of the two. So a document is returned as a content match, for any
    query, only when the last write that names its path is such a landing
    or such a rename. *)
Theorem entry_tracks_last_write (ts : list Turn) (P : jsstring) :
  let l := turns toLowerCase ts in
  (is_Some (textByPath (store l) !! P) <->
     exists op, lastOp P (log toLowerCase ts) = Some op /\ leavesEntry P op) /\
  (forall f now raw,
     lastOp P (log toLowerCase ts) = Some (Landed f now (Normal raw)) ->
     textByPath (store l) !! P = Some (toLowerCase raw)) /\
  (forall f now r, Landed f now r ∈ log toLowerCase ts -> passedFilters f) /\
  (forall f, Rejected f ∈ log toLowerCase ts -> ~ passedFilters f) /\
  (forall modal query r,
     r ∈ getSuggestions toLowerCase localeCompare modal (store l) query ->
     path (file r) = P ->
     matchIn r = MatchContent ->
     exists op, lastOp P (log toLowerCase ts) = Some op /\ leavesEntry P op).
Proof.
  intros l.
  assert (is_Some (textByPath (store l) !! P) <->
          exists op, lastOp P (log toLowerCase ts) = Some op /\ leavesEntry P op)
    as Hiff.
  { pose proof (turns_lastOp toLowerCase ts P) as Hlast. fold l in Hlast.
    destruct (lastOp P (log toLowerCase ts)) as [op|].
    - destruct Hlast as [Hlast _]. rewrite Hlast. split; [by eauto|].
      by intros (op' & [= <-] & Hop).
    - rewrite Hlast. split; [by intros [? ?] | by intros (? & ? & _)]. }
  split; [exact Hiff|]. split.
  { intros f now raw Hlast.
    pose proof (turns_lastOp toLowerCase ts P) as Hinv. rewrite Hlast in Hinv.
    destruct Hinv as [_ Hinv]. exact (Hinv f now raw eq_refl). }
  split; [apply log_Landed|]. split; [apply log_Rejected|].
  intros modal query r Hr Hpath Hkind. apply Hiff. rewrite <- Hpath.
  by eapply content_match_has_entry.
Qed.

(** C2, as amended. For a document of the catalog with a stored text, and a
    query [Q] of at least 3 code units that is its own trimmed lowercase
    form, occurs in the stored text and does not occur in the lowercased
    path: the loop produces a content result with a snippet for the
    document, the sorted candidates hold it at some rank [k], and
    [getSuggestions] returns it there when [k] is below 200, which it is
    when at most 200 documents match. *)
Theorem content_match_is_found
    (modal : FileSearchModal) (s : ContentIndex) (D : TFile)
    (text Q : jsstring) :
  D ∈ allFiles modal ->
  textByPath s !! path D = Some text ->
  isSubstring Q text ->
  (3 <= length Q)%nat ->
  toLowerCase (Js.trim Q) = Q ->
  ~ isSubstring Q (toLowerCase (path D)) ->
  exists sn r k,
    findSnippet s (path D) Q = Some sn /\
    r = {| file := D;
           isOpen := bool_decide (path D ∈ openFilePaths modal);
           isActive := bool_decide (activeFilePath modal = Some (path D));
           matchIn := MatchContent;
           snippet := Some (Found.snippet sn) |} /\
    r ∈ candidates toLowerCase modal s Q /\
    Js.sort (compareResults localeCompare)
        (candidates toLowerCase modal s Q) !! k = Some r /\
    ((k < 200)%nat -> getSuggestions toLowerCase localeCompare
        modal s Q !! k = Some r) /\
    ((length (candidates toLowerCase modal s Q) <= 200)%nat ->
     r ∈ getSuggestions toLowerCase localeCompare modal s Q).
Proof.
  intros HD Hlookup Hsub Hlen Hnorm Hpath.
  assert (Q <> []) as Hne by (intros ->; cbn in Hlen; lia).
  destruct (findSnippet_found s (path D) Q text Hlookup Hne Hsub) as [sn Hsn].
  assert (Js.includes (toLowerCase (path D)) Q = false) as Hinc.
  { apply not_true_is_false. by rewrite includes_spec. }
  assert ((3 <=? Js.len Q) = true) as Hsc
    by (apply Z.leb_le; unfold Js.len; lia).
  set (r := {| file := D;
               isOpen := bool_decide (path D ∈ openFilePaths modal);
               isActive := bool_decide (activeFilePath modal = Some (path D));
               matchIn := MatchContent;
               snippet := Some (Found.snippet sn) |}).
  assert (r ∈ candidates toLowerCase modal s Q) as Hcand.
  { unfold candidates. apply list_elem_of_omap. exists D. split; [done|].
    unfold suggestionFor. rewrite Hinc, Hsc. cbn. by rewrite Hsn. }
  assert (r ∈ Js.sort (compareResults localeCompare) (candidates toLowerCase modal s Q))
    as Hsorted by (by rewrite sort_Permutation).
  apply list_elem_of_lookup in Hsorted as [k Hk].
  assert (getSuggestions toLowerCase localeCompare modal s Q
          = rank localeCompare (candidates toLowerCase modal s Q)) as Hget.
  { unfold getSuggestions. rewrite Hnorm. by destruct Q. }
  exists sn, r, k. split; [done|]. split; [done|]. split; [done|].
  split; [done|]. split.
  - intros Hk200. rewrite Hget. unfold rank. by rewrite lookup_take_lt.
  - intros Hsmall. rewrite Hget, rank_small by done.
    apply list_elem_of_lookup. eauto.
Qed.

End SearchClaims.

(* ===================================================================== *)
(** * Concrete runs *)
(* ===================================================================== *)

(** C1 as stated fails. After a rename to a disallowed extension the new
    path has an entry although it was never observed, and the document is
    returned as a content match; a document observed with a size that is not
    a number has an entry; a document deleted after an eligible, readable
    observation has none; and when a note grows above the limit while the
    read of an earlier event is in flight, the most recent observation
    rejects it, yet the read lands afterwards, leaves an entry, and the
    document is returned as a content match. *)
Lemma entry_without_eligible_observation :
  (lastObserved (path helloPng) renamedToPng = None /\
   (extension helloPng ∉ indexExtensions) /\
   textByPath (store (turns Js.asciiLower renamedToPng)) !! path helloPng
     = Some (Js.lit "hello there") /\
   getSuggestions Js.asciiLower Js.codeUnitCompare (modalOver [helloPng])
     (store (turns Js.asciiLower renamedToPng)) (Js.lit "there")
     = [{| file := helloPng; isOpen := false; isActive := false;
           matchIn := MatchContent;
           snippet := Some (Js.lit "hello there") |}]) /\
  (lastObserved (path unsizedMd) unsizedCreated = Some unsizedMd /\
   ~ (exists n, statSize unsizedMd = Some n /\ n <= maxFileBytes) /\
   textByPath (store (turns Js.asciiLower unsizedCreated)) !! path unsizedMd
     = Some (Js.lit "hello there")) /\
  (lastObserved (path helloMd) createdThenDeleted = Some helloMd /\
   extension helloMd ∈ indexExtensions /\
   statSize helloMd = Some 11 /\
   log Js.asciiLower createdThenDeleted
     = [Landed helloMd helloMd (Normal (Js.lit "Hello there")); Removed helloMd] /\
   textByPath (store (turns Js.asciiLower createdThenDeleted)) !! path helloMd
     = None) /\
  (lastObserved (path helloMd) grownWhileRead = Some grownMd /\
   statSize grownMd = Some 2000000 /\
   log Js.asciiLower grownWhileRead
     = [Rejected grownMd; Landed helloMd helloMd (Normal (Js.lit "Hello there"))] /\
   textByPath (store (turns Js.asciiLower grownWhileRead)) !! path grownMd
     = Some (Js.lit "hello there") /\
   getSuggestions Js.asciiLower Js.codeUnitCompare (modalOver [grownMd])
     (store (turns Js.asciiLower grownWhileRead)) (Js.lit "there")
     = [{| file := grownMd; isOpen := false; isActive := false;
           matchIn := MatchContent;
           snippet := Some (Js.lit "hello there") |}]).
Proof.
  split; [|split; [|split]].
  - split; [reflexivity|]. split; [by vm_compute|].
    split; reflexivity.
  - split; [reflexivity|]. split; [|reflexivity].
    by intros (n & Hn & _).
  - split; [reflexivity|]. split; [by vm_compute|].
    repeat split; reflexivity.
  - repeat split; reflexivity.
Qed.

Lemma entry_tracks_last_write_witness :
  (lastOp (path grownMd) (log Js.asciiLower grownWhileRead)
     = Some (Landed helloMd helloMd (Normal (Js.lit "Hello there"))) /\
   textByPath (store (turns Js.asciiLower grownWhileRead)) !! path grownMd
     = Some (Js.lit "hello there") /\
   passedFilters helloMd /\ ~ passedFilters grownMd) /\
  (lastOp (path helloPng) (log Js.asciiLower renamedThenModified)
     = Some (Rejected helloPng) /\
   forall modal query r,
     r ∈ getSuggestions Js.asciiLower Js.codeUnitCompare modal
           (store (turns Js.asciiLower renamedThenModified)) query ->
     path (file r) = path helloPng ->
     matchIn r = MatchPath).
Proof.
  split.
  - destruct (entry_tracks_last_write Js.asciiLower Js.codeUnitCompare
                grownWhileRead (path grownMd))
      as (_ & Htext & Hlanded & Hrejected & _).
    assert (lastOp (path grownMd) (log Js.asciiLower grownWhileRead)
            = Some (Landed helloMd helloMd (Normal (Js.lit "Hello there")))) as Hlast
      by reflexivity.
    split; [exact Hlast|]. split; [exact (Htext _ _ _ Hlast)|].
    split.
    + apply (Hlanded helloMd helloMd (Normal (Js.lit "Hello there"))).
      apply elem_of_cons. right. apply list_elem_of_here.
    + apply (Hrejected grownMd). apply list_elem_of_here.
  - destruct (entry_tracks_last_write Js.asciiLower Js.codeUnitCompare
                renamedThenModified (path helloPng))
      as (_ & _ & _ & _ & Hsearch).
    split; [reflexivity|].
    intros modal query r Hr Hpath.
    destruct (matchIn r) eqn:Hkind; [done|]. exfalso.
    destruct (Hsearch modal query r Hr Hpath Hkind) as (op & Hop & Hleaves).
    assert (lastOp (path helloPng) (log Js.asciiLower renamedThenModified)
            = Some (Rejected helloPng)) as Hlast by reflexivity.
    rewrite Hlast in Hop. injection Hop as <-. exact Hleaves.
Defined.

(** C2 as stated fails. The query ["y  "] occurs in the stored text of
    [n.md] and has 3 code units, but is searched as ["y"], for which content
    is not scanned; and the query ["milk"] finds [n.md] by content only, so
    that 200 path matches rank before it and fill the returned list. *)
Lemma content_match_lost_to_trim_or_cap :
  (milkNote ∈ allFiles (modalOver [milkNote]) /\
   textByPath milkIndex !! path milkNote = Some (Js.lit "buy  milk") /\
   isSubstring (Js.lit "y  ") (Js.lit "buy  milk") /\
   (3 <= length (Js.lit "y  "))%nat /\
   ~ isSubstring (Js.asciiLower (Js.lit "y  ")) (Js.asciiLower (path milkNote)) /\
   getSuggestions Js.asciiLower Js.codeUnitCompare
       (modalOver [milkNote]) milkIndex (Js.lit "y  ")
     = []) /\
  (milkNote ∈ allFiles (modalOver (milkNote :: milkCrowd)) /\
   isSubstring (Js.lit "milk") (Js.lit "buy  milk") /\
   (3 <= length (Js.lit "milk"))%nat /\
   Js.asciiLower (Js.trim (Js.lit "milk")) = Js.lit "milk" /\
   ~ isSubstring (Js.asciiLower (Js.lit "milk")) (Js.asciiLower (path milkNote)) /\
   length (getSuggestions Js.asciiLower Js.codeUnitCompare
       (modalOver (milkNote :: milkCrowd))
             milkIndex (Js.lit "milk")) = 200%nat /\
   Forall (fun r => path (file r) <> path milkNote)
     (getSuggestions Js.asciiLower Js.codeUnitCompare
         (modalOver (milkNote :: milkCrowd))
        milkIndex (Js.lit "milk"))).
Proof.
  assert (forall q text, Js.includes text q = false -> ~ isSubstring q text)
    as Hnot.
  { intros q text Hinc Hsub%includes_spec. congruence. }
  split.
  - split; [apply list_elem_of_here|]. split; [reflexivity|].
    split; [apply includes_spec; reflexivity|]. split; [cbn; lia|].
    split; [apply Hnot; reflexivity | reflexivity].
  - split; [apply list_elem_of_here|].
    split; [apply includes_spec; reflexivity|]. split; [cbn; lia|].
    split; [reflexivity|]. split; [apply Hnot; reflexivity|].
    split; [by vm_compute|].
    apply (bool_decide_unpack _). by vm_compute.
Qed.

Lemma content_match_is_found_witness :
  milkNote ∈ allFiles (modalOver [milkNote]) /\
  textByPath milkIndex !! path milkNote = Some (Js.lit "buy  milk") /\
  isSubstring (Js.lit "milk") (Js.lit "buy  milk") /\
  (3 <= length (Js.lit "milk"))%nat /\
  Js.asciiLower (Js.trim (Js.lit "milk")) = Js.lit "milk" /\
  ~ isSubstring (Js.lit "milk") (Js.asciiLower (path milkNote)) /\
  exists r,
    r ∈ getSuggestions Js.asciiLower Js.codeUnitCompare (modalOver [milkNote]) milkIndex
          (Js.lit "milk") /\
    file r = milkNote /\ matchIn r = MatchContent /\
    snippet r = Some (Js.lit "buy milk").
Proof.
  assert (milkNote ∈ allFiles (modalOver [milkNote])) as H1
    by apply list_elem_of_here.
  assert (textByPath milkIndex !! path milkNote = Some (Js.lit "buy  milk"))
    as H2 by reflexivity.
  assert (isSubstring (Js.lit "milk") (Js.lit "buy  milk")) as H3
    by (apply includes_spec; reflexivity).
  assert (3 <= length (Js.lit "milk"))%nat as H4 by (cbn; lia).
  assert (Js.asciiLower (Js.trim (Js.lit "milk")) = Js.lit "milk") as H5
    by reflexivity.
  assert (~ isSubstring (Js.lit "milk") (Js.asciiLower (path milkNote))) as H6.
  { intros Hsub%includes_spec. discriminate Hsub. }
  destruct (content_match_is_found Js.asciiLower Js.codeUnitCompare
              (modalOver [milkNote])
              milkIndex milkNote (Js.lit "buy  milk") (Js.lit "milk")
              H1 H2 H3 H4 H5 H6)
    as (sn & r & k & Hsn & -> & _ & _ & _ & Hin).
  repeat (split; [assumption|]).
  eexists. split; [apply Hin, Nat.leb_le; reflexivity|].
  split; [reflexivity|]. split; [reflexivity|].
  cbn [snippet]. f_equal.
  assert (findSnippet milkIndex (path milkNote) (Js.lit "milk")
          = Some {| Found.snippet := Js.lit "buy milk"; Found.at_ := 5 |})
    as Hfound by reflexivity.
  rewrite Hfound in Hsn. by injection Hsn as <-.
Defined.

(* ===================================================================== *)
(** * Further properties of the index *)
(* ===================================================================== *)

Section MoreStringFacts.

Lemma collapseFrom_length b s : (length (Js.collapseFrom b s) <= length s)%nat.
Proof.
  revert b. induction s as [|c s IH]; intros b; simpl; [done|].
  pose proof (IH true). pose proof (IH false).
  destruct (Js.isWhiteSpace c); [destruct b|]; simpl; lia.
Qed.

Lemma trim_length s : (length (Js.trim s) <= length s)%nat.
Proof.
  unfold Js.trim, Js.trimEnd. rewrite length_rev.
  pose proof (trimStart_length (rev (Js.trimStart s))) as H1.
  rewrite length_rev in H1. pose proof (trimStart_length s). lia.
Qed.

Lemma collapseFrom_onlyPlainSpaces b s : onlyPlainSpaces (Js.collapseFrom b s).
Proof.
  unfold onlyPlainSpaces. revert b.
  induction s as [|c s IH]; intros b; simpl; [constructor|].
  destruct (Js.isWhiteSpace c) eqn:Hc; [destruct b|].
  - apply IH.
  - constructor; [done | apply IH].
  - constructor; [by rewrite Hc | apply IH].
Qed.

Lemma trimStart_suffix s : exists ws, s = ws ++ Js.trimStart s.
Proof. destruct (trimStart_split s) as (ws & Heq & _). eauto. Qed.

Lemma trim_infix s : exists l r, s = l ++ Js.trim s ++ r.
Proof. destruct (trim_spec s) as (l & r & Heq & _). eauto. Qed.

Lemma trim_onlyPlainSpaces s : onlyPlainSpaces s -> onlyPlainSpaces (Js.trim s).
Proof.
  unfold onlyPlainSpaces. destruct (trim_infix s) as (l & r & Heq).
  rewrite Heq at 1. rewrite !Forall_app. tauto.
Qed.

Lemma trim_allWhiteSpace s : allWhiteSpace s -> Js.trim s = [].
Proof.
  intros Hs. assert (Js.trimStart s = []) as Hstart.
  { induction Hs as [|c s Hc _ IH]; simpl; [done|]. by rewrite Hc. }
  unfold Js.trim, Js.trimEnd. by rewrite Hstart.
Qed.

End MoreStringFacts.

Section SnippetFacts.

Lemma findSnippet_inv s p q sn :
  findSnippet s p q = Some sn ->
  exists text,
    textByPath s !! p = Some text /\ text <> [] /\
    Js.indexOf text q <> -1 /\
    Found.at_ sn = Js.indexOf text q /\
    let start := Z.max 0 (Js.indexOf text q - 40) in
    let end_ := Z.min (Js.len text) (Js.indexOf text q + Js.len q + 60) in
    Found.snippet sn =
      (if 0 <? start then ellipsisBefore else []) ++
      Js.trim (Js.replaceWhiteSpaceRuns (Js.slice text start end_)) ++
      (if end_ <? Js.len text then ellipsisAfter else []).
Proof.
  unfold findSnippet. destruct (textByPath s !! p) as [text|]; [|done].
  destruct text as [|c text]; [done|]. cbn [Js.truthy negb].
  destruct (Z.eqb_spec (Js.indexOf (c :: text) q) (-1)) as [|Hne]; [done|].
  intros [= <-]. exists (c :: text). cbn [Found.at_ Found.snippet].
  repeat split; try done.
  destruct (0 <? _), (_ <? Js.len (c :: text));
    by rewrite ?app_nil_r, <- ?app_assoc.
Qed.

Lemma isSubstring_infix (q pre post : jsstring) : isSubstring q (pre ++ q ++ post).
Proof. exists (length pre), pre, post. done. Qed.

Lemma isSubstring_app (q s l r : jsstring) :
  isSubstring q s -> isSubstring q (l ++ s ++ r).
Proof.
  intros (i & pre & post & -> & _).
  replace (l ++ (pre ++ q ++ post) ++ r) with ((l ++ pre) ++ q ++ (post ++ r))
    by (by rewrite <- !app_assoc).
  apply isSubstring_infix.
Qed.

Lemma collapseFrom_clean_app b (u v : jsstring) :
  startsClean v ->
  Js.collapseFrom b (u ++ v) = Js.collapseFrom b u ++ Js.collapseFrom false v.
Proof.
  intros Hv. revert b. induction u as [|x u IH]; intros b; simpl.
  - destruct v as [|c v]; [done|]. simpl in *. by rewrite Hv.
  - destruct (Js.isWhiteSpace x); [destruct b|]; simpl; by rewrite IH.
Qed.

Lemma collapseFrom_solid (q w : jsstring) :
  q <> [] -> Forall (fun c => Js.isWhiteSpace c = false) q ->
  Js.collapseFrom false (q ++ w) = q ++ Js.collapseFrom false w.
Proof.
  intros Hq Hsolid. induction Hsolid as [|c q Hc Hsolid IH]; [done|].
  simpl. rewrite Hc. f_equal.
  destruct q as [|c' q]; [done|]. by apply IH.
Qed.

Lemma collapse_keeps b (q s : jsstring) :
  q <> [] -> Forall (fun c => Js.isWhiteSpace c = false) q ->
  isSubstring q s -> isSubstring q (Js.collapseFrom b s).
Proof.
  intros Hq Hsolid (i & pre & post & -> & _).
  rewrite collapseFrom_clean_app.
  - rewrite collapseFrom_solid by done. apply isSubstring_infix.
  - destruct Hsolid; [done|]. done.
Qed.

Lemma trimStart_keeps (pre q post : jsstring) :
  q <> [] -> Forall (fun c => Js.isWhiteSpace c = false) q ->
  exists pre', Js.trimStart (pre ++ q ++ post) = pre' ++ q ++ post.
Proof.
  intros Hq Hsolid. induction pre as [|x pre [pre' IH]]; simpl.
  - exists []. destruct Hsolid as [|c q Hc _]; [done|]. simpl. by rewrite Hc.
  - destruct (Js.isWhiteSpace x); [by exists pre' | by exists (x :: pre)].
Qed.

Lemma trim_keeps (q s : jsstring) :
  q <> [] -> Forall (fun c => Js.isWhiteSpace c = false) q ->
  isSubstring q s -> isSubstring q (Js.trim s).
Proof.
  intros Hq Hsolid (i & pre & post & -> & _).
  unfold Js.trim, Js.trimEnd.
  destruct (trimStart_keeps pre q post Hq Hsolid) as [pre' ->].
  rewrite !rev_app_distr, <- app_assoc.
  destruct (trimStart_keeps (rev post) (rev q) (rev pre')) as [post' ->].
  { intros Hrev. apply Hq. by rewrite <- (rev_involutive q), Hrev. }
  { apply Forall_forall. intros c Hc. rewrite Forall_forall in Hsolid.
    apply Hsolid. apply list_elem_of_In. apply list_elem_of_In in Hc.
    by apply in_rev. }
  rewrite !rev_app_distr, !rev_involutive, <- app_assoc.
  apply isSubstring_infix.
Qed.

Lemma window_keeps (text q : jsstring) (i : nat) (a b : Z) :
  occursAt text q i ->
  0 <= a <= Z.of_nat i -> Z.of_nat i + Js.len q <= b ->
  isSubstring q (take (Z.to_nat (b - a)) (drop (Z.to_nat a) text)).
Proof.
  intros (pre & post & -> & <-) Ha Hb. unfold Js.len in Hb.
  rewrite drop_app_le by lia.
  rewrite take_app_ge by (rewrite length_drop; lia).
  rewrite take_app_ge by (rewrite length_drop; lia).
  apply isSubstring_infix.
Qed.

End SnippetFacts.

Lemma findSnippet_at_first
    (s : ContentIndex) (p q : jsstring) (sn : Found.t) :
  findSnippet s p q = Some sn ->
  exists text,
    textByPath s !! p = Some text /\
    firstOccurrence text q (Z.to_nat (Found.at_ sn)) /\
    0 <= Found.at_ sn /\ Found.at_ sn + Js.len q <= Js.len text.
Proof.
  intros (text & Hlookup & _ & Hne & Hat & _)%findSnippet_inv.
  exists text. split; [done|].
  destruct (indexOf_range text q) as [|Hge]; [done|].
  assert (firstOccurrence text q (Z.to_nat (Found.at_ sn))) as Hfirst.
  { apply indexOf_occurs. lia. }
  pose proof (occursAt_bound _ _ _ (proj1 Hfirst)) as Hbound.
  split; [done|]. split; [lia|]. unfold Js.len; lia.
Qed.

(** X1. A snippet that is found belongs to a stored text, its offset is the
    first occurrence of the query in that text, and it is short: at most
    the query length plus 104 code units (a window of 40 before and 60
    after the match, and two markers of 2). *)
Theorem findSnippet_offset_and_length
    (s : ContentIndex) (p q : jsstring) (sn : Found.t) :
  findSnippet s p q = Some sn ->
  exists text,
    textByPath s !! p = Some text /\
    firstOccurrence text q (Z.to_nat (Found.at_ sn)) /\
    0 <= Found.at_ sn /\ Found.at_ sn + Js.len q <= Js.len text /\
    (length (Found.snippet sn) <= length q + 104)%nat.
Proof.
  intros (text & Hlookup & _ & Hne & Hat & Hsn)%findSnippet_inv.
  exists text. split; [done|].
  destruct (indexOf_range text q) as [|Hge]; [done|].
  assert (firstOccurrence text q (Z.to_nat (Found.at_ sn))) as Hfirst.
  { apply indexOf_occurs. lia. }
  pose proof (occursAt_bound _ _ _ (proj1 Hfirst)) as Hbound.
  split; [done|]. split; [lia|]. split; [unfold Js.len; lia|].
  cbv zeta in Hsn. rewrite Hsn, <- Hat.
  set (start := Z.max 0 (Found.at_ sn - 40)).
  set (end_ := Z.min (Js.len text) (Found.at_ sn + Js.len q + 60)).
  assert (0 <= start <= end_ /\ end_ <= Js.len text) as [Hse Hel]
    by (unfold start, end_, Js.len in *; lia).
  rewrite (slice_window _ _ _ Hse Hel), !length_app.
  pose proof (trim_length (Js.replaceWhiteSpaceRuns
    (take (Z.to_nat (end_ - start)) (drop (Z.to_nat start) text)))) as Htrim.
  pose proof (collapseFrom_length false
    (take (Z.to_nat (end_ - start)) (drop (Z.to_nat start) text))) as Hcol.
  unfold Js.replaceWhiteSpaceRuns in Htrim.
  rewrite length_take in Hcol.
  assert (Z.to_nat (end_ - start) <= length q + 100)%nat
    by (unfold start, end_, Js.len in *; lia).
  destruct (0 <? start), (end_ <? Js.len text); cbn [length ellipsisBefore
    ellipsisAfter]; unfold Js.replaceWhiteSpaceRuns; lia.
Qed.

Lemma findSnippet_offset_and_length_witness :
  findSnippet sampleIndex (Js.lit "n.md") (Js.lit "beta") =
    Some {| Found.snippet :=
              Js.lit "alpha beta gamma delta epsilon zeta eta theta iota kappa lambda mu n"
              ++ [32%N; 8230%N];
            Found.at_ := 6 |} /\
  firstOccurrence sampleText (Js.lit "beta") 6 /\
  (70 <= length (Js.lit "beta") + 104)%nat.
Proof.
  assert (findSnippet sampleIndex (Js.lit "n.md") (Js.lit "beta") =
    Some {| Found.snippet :=
              Js.lit "alpha beta gamma delta epsilon zeta eta theta iota kappa lambda mu n"
              ++ [32%N; 8230%N];
            Found.at_ := 6 |}) as H1 by reflexivity.
  destruct (findSnippet_offset_and_length _ _ _ _ H1)
    as (text & Htext & Hfirst & _ & _ & Hlen).
  assert (text = sampleText) as -> by (by injection Htext).
  split; [exact H1|]. split; [exact Hfirst | exact Hlen].
Defined.

(** X2. In a snippet every whitespace code unit is a plain space: tabs,
    line breaks and the other whitespace of the text do not reach the
    preview. *)
Theorem findSnippet_only_plain_spaces
    (s : ContentIndex) (p q : jsstring) (sn : Found.t) :
  findSnippet s p q = Some sn -> onlyPlainSpaces (Found.snippet sn).
Proof.
  intros (text & _ & _ & _ & _ & Hsn)%findSnippet_inv.
  cbv zeta in Hsn. rewrite Hsn. unfold onlyPlainSpaces.
  rewrite !Forall_app. split; [|split].
  - destruct (0 <? _); [|constructor]. by repeat constructor.
  - apply trim_onlyPlainSpaces, collapseFrom_onlyPlainSpaces.
  - destruct (_ <? Js.len text); [|constructor]. by repeat constructor.
Qed.

Lemma findSnippet_only_plain_spaces_witness :
  findSnippet tabbedIndex (Js.lit "t.md") (Js.lit "b") =
    Some {| Found.snippet := Js.lit "a b c"; Found.at_ := 3 |} /\
  onlyPlainSpaces (Js.lit "a b c").
Proof.
  assert (findSnippet tabbedIndex (Js.lit "t.md") (Js.lit "b") =
    Some {| Found.snippet := Js.lit "a b c"; Found.at_ := 3 |}) as H1
    by reflexivity.
  split; [exact H1|].
  exact (findSnippet_only_plain_spaces _ _ _ _ H1).
Defined.

(** X3. When the query is not empty and holds no whitespace, the snippet
    shows it: the query occurs in the snippet as it was typed. *)
Theorem findSnippet_shows_query
    (s : ContentIndex) (p q : jsstring) (sn : Found.t) :
  findSnippet s p q = Some sn ->
  q <> [] ->
  Forall (fun c => Js.isWhiteSpace c = false) q ->
  isSubstring q (Found.snippet sn).
Proof.
  intros Hfound Hq Hsolid.
  destruct (findSnippet_at_first _ _ _ _ Hfound)
    as (text & Hlookup & [Hocc _] & Hge & Hbound).
  apply findSnippet_inv in Hfound
    as (text' & Hlookup' & _ & _ & Hat & Hsn).
  assert (text' = text) as -> by congruence.
  cbv zeta in Hsn. rewrite Hsn, <- Hat.
  set (start := Z.max 0 (Found.at_ sn - 40)).
  set (end_ := Z.min (Js.len text) (Found.at_ sn + Js.len q + 60)).
  assert (0 <= start <= end_ /\ end_ <= Js.len text) as [Hse Hel]
    by (unfold start, end_, Js.len in *; lia).
  rewrite (slice_window _ _ _ Hse Hel).
  apply isSubstring_app, trim_keeps; [done..|].
  apply collapse_keeps; [done..|].
  apply (window_keeps text q (Z.to_nat (Found.at_ sn))); [done| |];
    unfold start, end_, Js.len in *; lia.
Qed.

Lemma findSnippet_shows_query_witness :
  findSnippet sampleIndex (Js.lit "n.md") (Js.lit "beta") =
    Some {| Found.snippet :=
              Js.lit "alpha beta gamma delta epsilon zeta eta theta iota kappa lambda mu n"
              ++ [32%N; 8230%N];
            Found.at_ := 6 |} /\
  Js.lit "beta" <> [] /\
  Forall (fun c => Js.isWhiteSpace c = false) (Js.lit "beta") /\
  isSubstring (Js.lit "beta")
    (Js.lit "alpha beta gamma delta epsilon zeta eta theta iota kappa lambda mu n"
     ++ [32%N; 8230%N]).
Proof.
  assert (findSnippet sampleIndex (Js.lit "n.md") (Js.lit "beta") =
    Some {| Found.snippet :=
              Js.lit "alpha beta gamma delta epsilon zeta eta theta iota kappa lambda mu n"
              ++ [32%N; 8230%N];
            Found.at_ := 6 |}) as H1 by reflexivity.
  assert (Js.lit "beta" <> []) as H2 by discriminate.
  assert (Forall (fun c => Js.isWhiteSpace c = false) (Js.lit "beta")) as H3
    by (repeat constructor).
  split; [exact H1|]. split; [exact H2|]. split; [exact H3|].
  exact (findSnippet_shows_query _ _ _ _ H1 H2 H3).
Defined.

(** X4. [contains] and [findSnippet] agree: [contains] answers [true]
    exactly when [findSnippet] returns a snippet, for every path and every
    query, the empty one included. *)
Theorem contains_iff_findSnippet (s : ContentIndex) (p q : jsstring) :
  contains s p q = true <-> is_Some (findSnippet s p q).
Proof.
  unfold contains, findSnippet, Js.includes.
  destruct (textByPath s !! p) as [text|]; [|by split; [|intros [? ?]]].
  destruct text as [|c text]; cbn [Js.truthy negb andb].
  { by split; [|intros [? ?]]. }
  destruct (Js.indexOf (c :: text) q =? -1); cbn.
  - by split; [|intros [? ?]].
  - split; [eauto | done].
Qed.

Section MoreIndexFacts.

Variable toLowerCase : jsstring -> jsstring.
Variable localeCompare : jsstring -> jsstring -> Z.

Lemma foldl_upserted_indep vault files p : forall m1 m2,
  p ∈ map path files ->
  foldl (fun m f => upserted toLowerCase vault f m) m1 files !! p =
  foldl (fun m f => upserted toLowerCase vault f m) m2 files !! p.
Proof.
  induction files as [|f files IH] using rev_ind; intros m1 m2 Hp.
  - by apply elem_of_nil in Hp.
  - rewrite !foldl_app. cbn [foldl].
    destruct (decide (p = path f)) as [->|Hne].
    + by rewrite !upserted_lookup.
    + rewrite !upserted_other by done. apply IH.
      rewrite map_app in Hp. apply elem_of_app in Hp as [Hp|Hp]; [done|].
      cbn in Hp. apply list_elem_of_singleton in Hp. done.
Qed.

Lemma foldl_upserted_unique vault files f m :
  NoDup (map path files) -> f ∈ files ->
  foldl (fun m f => upserted toLowerCase vault f m) m files !! path f
  = observed toLowerCase vault f.
Proof.
  revert m. induction files as [|g files IH]; intros m Hnd Hf.
  - by apply elem_of_nil in Hf.
  - cbn in Hnd. apply NoDup_cons in Hnd as [Hg Hnd]. cbn [foldl].
    apply elem_of_cons in Hf as [->|Hf].
    + rewrite foldl_upserted_other by done. apply upserted_lookup.
    + by apply IH.
Qed.


(** X6. A delete event removes the entry of the file and nothing else:
    afterwards [contains] and [findSnippet] fail for its path, no query
    returns it as a content match, and a second delete changes nothing. *)
Theorem delete_event_forgets (doc : TFile) (s : ContentIndex) :
  let s' := onDelete (File doc) s in
  textByPath s' = delete (path doc) (textByPath s) /\
  building s' = building s /\
  (forall q, contains s' (path doc) q = false /\
             findSnippet s' (path doc) q = None) /\
  (forall modal query r,
      r ∈ getSuggestions toLowerCase localeCompare modal s' query ->
      path (file r) = path doc -> matchIn r = MatchPath) /\
  onDelete (File doc) s' = s'.
Proof.
  intros s'. unfold s'. cbn [onDelete]. unfold remove. cbn [textByPath building].
  split; [done|]. split; [done|]. split; [|split].
  - intros q. unfold contains, findSnippet. cbn [textByPath].
    by rewrite lookup_delete_eq.
  - intros modal query r Hr Hpath.
    destruct (matchIn r) eqn:Hkind; [done|]. exfalso.
    pose proof (content_match_has_entry _ _ _ _ _ _ Hr Hkind) as [v Hv].
    cbn [textByPath] in Hv. rewrite Hpath in Hv.
    by rewrite lookup_delete_eq in Hv.
  - by rewrite delete_delete_eq.
Qed.

(** X7. A full build over a catalog with pairwise distinct paths leaves,
    for every file of the catalog, the lowercased text if the file is
    eligible and readable and no entry otherwise; entries of paths outside
    the catalog are kept as they were. *)
Theorem build_indexes_the_catalog (vault : Vault) (s : ContentIndex) :
  building s = false ->
  NoDup (map path (getFiles vault)) ->
  let s' := snd (buildInitialIndex toLowerCase vault s) in
  building s' = false /\
  (forall f, f ∈ getFiles vault ->
             textByPath s' !! path f = observed toLowerCase vault f) /\
  (forall p, p ∉ map path (getFiles vault) ->
             textByPath s' !! p = textByPath s !! p).
Proof.
  intros Hb Hnd s'. unfold s'. rewrite buildInitialIndex_run by done. cbn.
  split; [done|]. split.
  - intros f Hf. by apply foldl_upserted_unique.
  - intros p Hp. by apply foldl_upserted_other.
Qed.

(** X8. Building twice from the same vault is building once: the second
    build returns the state the first one reached. *)
Theorem build_twice_is_once (vault : Vault) (s : ContentIndex) :
  building s = false ->
  buildInitialIndex toLowerCase vault
    (snd (buildInitialIndex toLowerCase vault s))
  = buildInitialIndex toLowerCase vault s.
Proof.
  intros Hb. rewrite (buildInitialIndex_run _ vault s) by done.
  cbn [snd]. rewrite buildInitialIndex_run by done. cbn [textByPath].
  f_equal. f_equal. apply map_eq. intros p.
  destruct (decide (p ∈ map path (getFiles vault))) as [Hin|Hout].
  - by apply foldl_upserted_indep.
  - by rewrite !foldl_upserted_other.
Qed.

(** X9. [rename] never adds an entry, and renaming back restores the
    index: when the new path had no entry, [rename] to it followed by
    [rename] back to the old path gives the state before. *)
Theorem rename_back_restores
    (s : ContentIndex) (oldPath : jsstring) (newDoc backDoc : TFile) :
  (base.size (textByPath (rename oldPath newDoc s))
   <= base.size (textByPath s))%nat /\
  (textByPath s !! path newDoc = None ->
   path backDoc = oldPath ->
   rename (path newDoc) backDoc (rename oldPath newDoc s) = s).
Proof.
  unfold rename at 1 3.
  destruct (textByPath s !! oldPath) as [v|] eqn:Hold.
  - assert (is_Some (textByPath s !! oldPath)) as Hsome by eauto.
    pose proof (map_size_delete_Some oldPath (textByPath s) Hsome) as Hdel.
    pose proof (map_size_ne_0_lookup_2 (textByPath s) oldPath Hsome).
    split.
    + cbn [textByPath]. rewrite map_size_insert.
      destruct (delete oldPath (textByPath s) !! path newDoc); cbn; lia.
    + intros Hnew Hback.
      assert (oldPath <> path newDoc) as Hne by congruence.
      unfold rename. cbn [textByPath building].
      rewrite lookup_insert_eq, Hback, delete_insert_eq.
      rewrite (delete_id (delete oldPath (textByPath s)))
        by (by rewrite lookup_delete_ne).
      rewrite insert_delete_eq, insert_id by done. by destruct s.
  - split; [lia|]. intros Hnew _. unfold rename. by rewrite Hnew.
Qed.

End MoreIndexFacts.

Section MoreInterleavingFacts.

Variable toLowerCase : jsstring -> jsstring.

Lemma resumeBuild_file vault fs i f m :
  fs !! i = Some f ->
  resumeBuild toLowerCase 0 vault
    {| index := {| textByPath := m; building := true |};
       running := [{| files := fs; next := i |}] |}
  = {| index := {| textByPath := upserted toLowerCase vault f m;
                   building := true |};
       running := [{| files := fs; next := S i |}] |}.
Proof.
  intros Hf. unfold resumeBuild. cbn [running index files next].
  change ([{| files := fs; next := i |}] !! 0%nat)
    with (Some {| files := fs; next := i |}).
  cbn [files next]. by rewrite Hf, indexFileIfEligible_run.
Qed.

Lemma resumeBuild_done vault fs i m :
  fs !! i = None ->
  resumeBuild toLowerCase 0 vault
    {| index := {| textByPath := m; building := true |};
       running := [{| files := fs; next := i |}] |}
  = {| index := {| textByPath := m; building := false |}; running := [] |}.
Proof.
  intros Hf. unfold resumeBuild. cbn [running index files next].
  change ([{| files := fs; next := i |}] !! 0%nat)
    with (Some {| files := fs; next := i |}).
  cbn [files next]. by rewrite Hf.
Qed.

Lemma resume_steps vault fs : forall k i m,
  (i + k = length fs)%nat ->
  foldl (exec toLowerCase)
    {| index := {| textByPath := m; building := true |};
       running := [{| files := fs; next := i |}] |}
    (replicate (S k) (ResumeBuild 0 vault))
  = {| index := {| textByPath :=
                     foldl (fun m f => upserted toLowerCase vault f m) m
                           (drop i fs);
                   building := false |};
       running := [] |}.
Proof.
  induction k as [|k IH]; intros i m Hlen.
  - cbn [replicate foldl exec].
    rewrite resumeBuild_done by (apply lookup_ge_None_2; lia).
    by rewrite drop_ge by lia.
  - destruct (lookup_lt_is_Some_2 fs i) as [f Hf]; [lia|].
    change (replicate (S (S k)) (ResumeBuild 0 vault))
      with (ResumeBuild 0 vault :: replicate (S k) (ResumeBuild 0 vault)).
    remember (replicate (S k) (ResumeBuild 0 vault)) as rest eqn:Hrest.
    cbn [foldl exec]. rewrite (resumeBuild_file _ _ _ _ _ Hf). subst rest.
    rewrite (IH (S i)) by lia.
    by rewrite (drop_S fs f i Hf).
Qed.

(** X10. A build that nothing interrupts ends as the build run in one go:
    from a state with no build in flight, a call of [buildInitialIndex]
    followed by one resumption per file of the catalog and one more leaves
    the index that [buildInitialIndex] computes, with no build in flight. *)
Theorem uninterrupted_build_is_sequential (vault : Vault) (p : Plugin) :
  building (index p) = false ->
  running p = [] ->
  foldl (exec toLowerCase) p
    (CallBuild vault ::
     replicate (S (length (getFiles vault))) (ResumeBuild 0 vault))
  = {| index := snd (buildInitialIndex toLowerCase vault (index p));
       running := [] |}.
Proof.
  intros Hb Hr. cbn [foldl exec]. unfold callBuild. rewrite Hb, Hr.
  cbn [app snd setBuilding].
  rewrite (resume_steps vault (getFiles vault) (length (getFiles vault)) 0)
    by lia.
  rewrite buildInitialIndex_run by done. by rewrite drop_0.
Qed.

End MoreInterleavingFacts.

Lemma uninterrupted_build_is_sequential_witness :
  building (index initialPlugin) = false /\
  running initialPlugin = [] /\
  textByPath (index (execAll Js.asciiLower
    [CallBuild sampleVault; ResumeBuild 0 sampleVault;
     ResumeBuild 0 sampleVault; ResumeBuild 0 sampleVault;
     ResumeBuild 0 sampleVault]))
  = textByPath (snd (buildInitialIndex Js.asciiLower sampleVault newContentIndex)).
Proof.
  assert (building (index initialPlugin) = false) as H1 by reflexivity.
  assert (running initialPlugin = []) as H2 by reflexivity.
  split; [exact H1|]. split; [exact H2|].
  pose proof (uninterrupted_build_is_sequential Js.asciiLower sampleVault
                initialPlugin H1 H2) as Hrun.
  unfold execAll. exact (f_equal (fun q => textByPath (index q)) Hrun).
Defined.

Lemma build_indexes_the_catalog_witness :
  building staleIndex = false /\
  NoDup (map path (getFiles sampleVault)) /\
  textByPath (snd (buildInitialIndex Js.asciiLower sampleVault staleIndex))
    !! path alphaMd = Some (Js.lit "alpha notes") /\
  textByPath (snd (buildInitialIndex Js.asciiLower sampleVault staleIndex))
    !! path brokenMd = None.
Proof.
  assert (building staleIndex = false) as H1 by reflexivity.
  assert (NoDup (map path (getFiles sampleVault))) as H2
    by (apply (bool_decide_unpack _); by vm_compute).
  destruct (build_indexes_the_catalog Js.asciiLower sampleVault staleIndex H1 H2)
    as (_ & Hin & _).
  split; [exact H1|]. split; [exact H2|]. split.
  - rewrite (Hin alphaMd) by (apply list_elem_of_here). reflexivity.
  - rewrite (Hin brokenMd)
      by (apply list_elem_of_further, list_elem_of_here). reflexivity.
Defined.

Lemma build_twice_is_once_witness :
  building staleIndex = false /\
  buildInitialIndex Js.asciiLower sampleVault
    (snd (buildInitialIndex Js.asciiLower sampleVault staleIndex))
  = buildInitialIndex Js.asciiLower sampleVault staleIndex.
Proof.
  assert (building staleIndex = false) as H1 by reflexivity.
  split; [exact H1|].
  exact (build_twice_is_once Js.asciiLower sampleVault staleIndex H1).
Defined.

(* ===================================================================== *)
(** * Further properties of the search *)
(* ===================================================================== *)

Section MoreSearchFacts.

Variable toLowerCase : jsstring -> jsstring.
Variable localeCompare : jsstring -> jsstring -> Z.

Lemma suggestionFor_Some modal s q sc f r :
  suggestionFor toLowerCase modal s q sc f = Some r ->
  let pathHit := Js.includes (toLowerCase (path f)) q in
  r = {| file := f;
         isOpen := bool_decide (path f ∈ openFilePaths modal);
         isActive := bool_decide (activeFilePath modal = Some (path f));
         matchIn := if pathHit then MatchPath else MatchContent;
         snippet := if pathHit then None
                    else Found.snippet <$> findSnippet s (path f) q |} /\
  (pathHit = false -> sc = true /\ is_Some (findSnippet s (path f) q)).
Proof.
  unfold suggestionFor.
  destruct (Js.includes (toLowerCase (path f)) q); cbn.
  { intros [= <-]. by split. }
  destruct sc; cbn; [|done].
  destruct (findSnippet s (path f) q) as [sn|]; cbn; [|done].
  intros [= <-]. split; [done|]. intros _. split; [done | by eexists].
Qed.

Lemma suggestionFor_short modal s1 s2 q f :
  suggestionFor toLowerCase modal s1 q false f
  = suggestionFor toLowerCase modal s2 q false f.
Proof. unfold suggestionFor. by rewrite !andb_false_r. Qed.

Lemma candidates_paths_sublist modal s q :
  map (fun r => path (file r)) (candidates toLowerCase modal s q)
    `sublist_of` map path (allFiles modal).
Proof.
  unfold candidates. induction (allFiles modal) as [|f fs IH]; cbn; [done|].
  destruct (suggestionFor toLowerCase modal s q _ f) as [r|] eqn:Hr; cbn.
  - rewrite (suggestionFor_file _ _ _ _ _ _ _ Hr). by constructor.
  - by constructor.
Qed.

(** An active result comes to the head of the sorted list: the first key
    decides against every inactive result, whatever the comparison of paths
    is. *)
Lemma sort_active_head results r :
  r ∈ results -> isActive r = true ->
  exists h, head (Js.sort (compareResults localeCompare) results) = Some h /\
            isActive h = true.
Proof.
  revert r. induction results as [|x rest IH]; intros r Hr Hactive.
  { by apply elem_of_nil in Hr. }
  cbn [Js.sort].
  destruct (Js.sort (compareResults localeCompare) rest) as [|y l] eqn:Hsort.
  - assert (rest = []) as ->.
    { apply Permutation_nil_r. by rewrite <- (sort_Permutation (compareResults localeCompare) rest), Hsort. }
    apply list_elem_of_singleton in Hr as ->. cbn. eauto.
  - cbn [Js.insertBy].
    destruct (isActive x) eqn:Hx.
    + destruct (compareResults localeCompare x y <=? 0) eqn:Hcmp; cbn; [eauto|].
      destruct (isActive y) eqn:Hy; [eauto|].
      destruct (compareResults_active localeCompare x y Hx Hy) as [Hlt _].
      rewrite Hlt in Hcmp. done.
    + apply elem_of_cons in Hr as [->|Hr]; [congruence|].
      destruct (IH r Hr Hactive) as (h & Hh & Hh_active).
      cbn in Hh. injection Hh as ->.
      destruct (compareResults_active localeCompare h x Hh_active Hx) as [_ Hgt].
      rewrite Hgt. cbn. eauto.
Qed.

Lemma rank_active_head results r :
  r ∈ results -> isActive r = true ->
  exists h, head (rank localeCompare results) = Some h /\ isActive h = true.
Proof.
  intros Hr Hactive. unfold rank.
  destruct (sort_active_head results r Hr Hactive) as (h & Hh & Hh_active).
  exists h. split; [|done].
  by destruct (Js.sort (compareResults localeCompare) results).
Qed.

Lemma NoDup_sublist_helper {A} (l1 l2 : list A) :
  l1 `sublist_of` l2 -> NoDup l2 -> NoDup l1.
Proof. intros Hsub Hnd. by eapply sublist_NoDup. Qed.

Lemma rank_paths_NoDup results :
  NoDup (map (fun r => path (file r)) results) ->
  NoDup (map (fun r => path (file r)) (rank localeCompare results)).
Proof.
  intros Hnd. unfold rank.
  assert (map (fun r => path (file r)) (take 200 (Js.sort (compareResults localeCompare)
      results))
          `sublist_of` map (fun r => path (file r))
                           (Js.sort (compareResults localeCompare) results)) as Hsub.
  { change (map ?f ?l) with (f <$> l). rewrite fmap_take. apply sublist_take. }
  eapply NoDup_sublist_helper; [exact Hsub|].
  assert (map (fun r => path (file r)) (Js.sort (compareResults localeCompare) results)
          ≡ₚ map (fun r => path (file r)) results) as Hperm
    by apply Permutation_map, sort_Permutation.
  by rewrite Hperm.
Qed.

Lemma getSuggestions_rank modal s query :
  getSuggestions toLowerCase localeCompare modal s query = [] \/
  getSuggestions toLowerCase localeCompare modal s query
  = rank localeCompare (candidates toLowerCase modal s (toLowerCase (Js.trim query))).
Proof.
  unfold getSuggestions.
  destruct (negb (Js.truthy (toLowerCase (Js.trim query)))); auto.
Qed.

(** X11. A query that is empty or made of whitespace only returns no
    result, whatever the catalog and the index hold. *)
Theorem blank_query_returns_nothing
    (modal : FileSearchModal) (s : ContentIndex) (query : jsstring) :
  toLowerCase [] = [] ->
  allWhiteSpace query ->
  getSuggestions toLowerCase localeCompare modal s query = [].
Proof.
  intros Hlower Hblank. unfold getSuggestions.
  by rewrite trim_allWhiteSpace, Hlower.
Qed.

(** X12. A query of fewer than 3 code units after trimming never looks at
    the index: the results are the same for every index state, all are path
    matches and none carries a snippet. *)
Theorem short_query_ignores_index
    (modal : FileSearchModal) (s1 s2 : ContentIndex) (query : jsstring) :
  Js.len (toLowerCase (Js.trim query)) < 3 ->
  getSuggestions toLowerCase localeCompare modal s1 query
    = getSuggestions toLowerCase localeCompare modal s2 query /\
  Forall (fun r => matchIn r = MatchPath /\ snippet r = None)
    (getSuggestions toLowerCase localeCompare modal s1 query).
Proof.
  intros Hshort.
  assert ((3 <=? Js.len (toLowerCase (Js.trim query))) = false) as Hsc
    by (apply Z.leb_gt; lia).
  split.
  - unfold getSuggestions, candidates. rewrite Hsc.
    destruct (negb _); [done|]. f_equal.
    apply list_omap_ext. apply Forall2_same_length_lookup. split; [done|].
    intros i f g Hf Hg. assert (f = g) as -> by congruence.
    apply suggestionFor_short.
  - apply Forall_forall. intros r Hr.
    apply getSuggestions_elem_of in Hr as (f & _ & Hf). rewrite Hsc in Hf.
    apply suggestionFor_Some in Hf as [-> Hhit].
    destruct (Js.includes (toLowerCase (path f)) _); [done|].
    by destruct Hhit.
Qed.

Lemma getSuggestions_flags
    (modal : FileSearchModal) (s : ContentIndex) (query : jsstring)
    (r : SearchResult) :
  r ∈ getSuggestions toLowerCase localeCompare modal s query ->
  file r ∈ allFiles modal /\
  isOpen r = bool_decide (path (file r) ∈ openFilePaths modal) /\
  isActive r = bool_decide (activeFilePath modal = Some (path (file r))).
Proof.
  intros (f & Hin & Hf)%getSuggestions_elem_of.
  apply suggestionFor_Some in Hf as [-> _]. by cbn.
Qed.

(** X13. What a returned result is: its file belongs to the catalog, its
    flags say whether the path is among the open paths and whether it is
    the active path, it is a path match exactly when the lowercased path
    contains the normalized query, and then it has no snippet; otherwise
    the query has at least 3 code units and the snippet is the one
    [findSnippet] gives for the path. *)
Theorem result_classification
    (modal : FileSearchModal) (s : ContentIndex) (query : jsstring)
    (r : SearchResult) :
  r ∈ getSuggestions toLowerCase localeCompare modal s query ->
  let q := toLowerCase (Js.trim query) in
  let pathHit := Js.includes (toLowerCase (path (file r))) q in
  file r ∈ allFiles modal /\
  isOpen r = bool_decide (path (file r) ∈ openFilePaths modal) /\
  isActive r = bool_decide (activeFilePath modal = Some (path (file r))) /\
  matchIn r = (if pathHit then MatchPath else MatchContent) /\
  snippet r = (if pathHit then None
               else Found.snippet <$> findSnippet s (path (file r)) q) /\
  (pathHit = false ->
   3 <= Js.len q /\ is_Some (findSnippet s (path (file r)) q)).
Proof.
  intros (f & Hin & Hf)%getSuggestions_elem_of q pathHit.
  apply suggestionFor_Some in Hf as [-> Hhit]. cbn in *.
  split; [done|]. split; [done|]. split; [done|]. split; [done|].
  split; [done|]. intros Hmiss. destruct (Hhit Hmiss) as [Hsc Hsn].
  split; [by apply Z.leb_le | done].
Qed.

Lemma getSuggestions_paths_NoDup
    (modal : FileSearchModal) (s : ContentIndex) (query : jsstring) :
  NoDup (map path (allFiles modal)) ->
  NoDup (map (fun r => path (file r))
             (getSuggestions toLowerCase localeCompare modal s query)).
Proof.
  intros Hnd.
  destruct (getSuggestions_rank modal s query) as [-> | ->]; [constructor|].
  apply rank_paths_NoDup. eapply NoDup_sublist_helper; [|exact Hnd].
  apply candidates_paths_sublist.
Qed.

(** X14. The list returned has at most 200 results and at most as many as
    the catalog has files; and when the paths of the catalog are pairwise
    distinct, so are the paths of the results. *)
Theorem results_are_few_and_distinct
    (modal : FileSearchModal) (s : ContentIndex) (query : jsstring) :
  (length (getSuggestions toLowerCase localeCompare modal s query) <= 200)%nat /\
  (length (getSuggestions toLowerCase localeCompare modal s query)
   <= length (allFiles modal))%nat /\
  (NoDup (map path (allFiles modal)) ->
   NoDup (map (fun r => path (file r))
              (getSuggestions toLowerCase localeCompare modal s query))).
Proof.
  destruct (getSuggestions_rank modal s query) as [-> | ->].
  { cbn. split; [lia|]. split; [lia | constructor]. }
  pose proof (candidates_paths_sublist modal s
                (toLowerCase (Js.trim query))) as Hsub.
  split; [|split].
  - unfold rank. rewrite length_take. lia.
  - unfold rank. rewrite length_take, sort_length.
    apply sublist_length in Hsub. rewrite !length_map in Hsub. lia.
  - intros Hnd. apply rank_paths_NoDup. by eapply NoDup_sublist_helper.
Qed.

(** X15. The active file, when it is returned, is the first result
    (catalog paths pairwise distinct). *)
Theorem active_result_is_first
    (modal : FileSearchModal) (s : ContentIndex) (query : jsstring)
    (r : SearchResult) :
  NoDup (map path (allFiles modal)) ->
  r ∈ getSuggestions toLowerCase localeCompare modal s query ->
  isActive r = true ->
  head (getSuggestions toLowerCase localeCompare modal s query) = Some r.
Proof.
  intros Hnd Hr Hactive.
  pose proof (getSuggestions_paths_NoDup modal s query Hnd) as Hdistinct.
  assert (exists h, head (getSuggestions toLowerCase localeCompare modal s query)
                    = Some h /\ isActive h = true) as (h & Hhead & Hh_active).
  { destruct (getSuggestions_rank modal s query) as [Hnone | Hrank].
    - rewrite Hnone in Hr. by apply elem_of_nil in Hr.
    - rewrite Hrank in Hr |- *.
      apply (rank_active_head _ r); [|done]. by eapply rank_elem_of. }
  rewrite Hhead. f_equal.
  assert (h ∈ getSuggestions toLowerCase localeCompare modal s query) as Hh_in.
  { destruct (getSuggestions toLowerCase localeCompare modal s query);
      [done|]. cbn in Hhead. injection Hhead as ->. apply list_elem_of_here. }
  destruct (getSuggestions_flags modal s query h Hh_in) as (_ & _ & Hah).
  destruct (getSuggestions_flags modal s query r Hr) as (_ & _ & Har).
  rewrite Hh_active in Hah. rewrite Hactive in Har.
  symmetry in Hah, Har.
  apply bool_decide_eq_true in Hah, Har.
  apply (NoDup_map_inj (fun r => path (file r))
           (getSuggestions toLowerCase localeCompare modal s query));
    [done..|].
  congruence.
Qed.

End MoreSearchFacts.

(* ===================================================================== *)
(** * The workspace: open paths and tab reuse *)
(* ===================================================================== *)

Section FilterFacts.

Context {A : Type} (P Q : A -> Prop) `{forall x, Decision (P x)}
  `{forall x, Decision (Q x)}.

Lemma filter_all (l : list A) : Forall P l -> filter P l = l.
Proof.
  induction 1 as [|x l Hx _ IH]; [done|].
  by rewrite filter_cons_True, IH.
Qed.

Lemma filter_none (l : list A) : Forall (fun x => ~ P x) l -> filter P l = [].
Proof.
  induction 1 as [|x l Hx _ IH]; [done|]. by rewrite filter_cons_False.
Qed.

Lemma filter_ext_in (l : list A) :
  (forall x, x ∈ l -> P x <-> Q x) -> filter P l = filter Q l.
Proof.
  induction l as [|x l IH]; intros Hext; [done|].
  assert (filter P l = filter Q l) as Htail.
  { apply IH. intros y Hy. apply Hext. by apply list_elem_of_further. }
  pose proof (Hext x (list_elem_of_here x l)) as Hx.
  destruct (decide (P x)) as [HP|HP].
  - rewrite !filter_cons_True by tauto. by rewrite Htail.
  - rewrite !filter_cons_False by tauto. done.
Qed.

End FilterFacts.

Section WorkspaceFacts.

Variable toLowerCase : jsstring -> jsstring.
Variable localeCompare : jsstring -> jsstring -> Z.

Lemma getOpenFilePaths_elem_of (app : App) (p : jsstring) :
  p ∈ getOpenFilePaths app <->
  exists leaf, leaf ∈ leaves (workspace app) /\ showsFile p leaf = true.
Proof.
  unfold getOpenFilePaths.
  assert (forall ls (acc : gset jsstring),
    p ∈ foldl (fun openPaths leaf =>
                 match View.state (getViewState leaf) with
                 | Some st => match View.file st with
                              | Some p => {[ p ]} ∪ openPaths
                              | None => openPaths
                              end
                 | None => openPaths
                 end) acc ls <->
    p ∈ acc \/ exists leaf, leaf ∈ ls /\ showsFile p leaf = true) as Hgen.
  { induction ls as [|l ls IH]; intros acc; cbn [foldl].
    - split; [auto | intros [?|(? & []%elem_of_nil & _)]; done].
    - rewrite IH. unfold showsFile at 2.
      split.
      + intros [Hacc | (leaf & Hin & Hshow)].
        * destruct (View.state (getViewState l)) as [st|] eqn:Hst; [|auto].
          destruct (View.file st) as [p'|] eqn:Hfile; [|auto].
          apply elem_of_union in Hacc as [->%elem_of_singleton|?]; [|auto].
          right. exists l. split; [apply list_elem_of_here|].
          unfold showsFile. rewrite Hst, Hfile. by apply bool_decide_eq_true.
        * right. exists leaf. split; [by apply list_elem_of_further | done].
      + intros [Hacc | (leaf & Hin & Hshow)].
        * left. destruct (View.state (getViewState l)) as [st|]; [|done].
          destruct (View.file st); [|done]. apply elem_of_union. by right.
        * apply elem_of_cons in Hin as [->|Hin].
          -- left. unfold showsFile in Hshow.
             destruct (View.state (getViewState l)) as [st|]; [|done].
             apply bool_decide_eq_true in Hshow. rewrite Hshow.
             apply elem_of_union. left. by apply elem_of_singleton.
          -- right. eauto. }
  rewrite Hgen. split; [intros [[]%elem_of_empty|?]; done | auto].
Qed.

(** X16. In the modal opened by the command, a result is flagged open
    exactly when some leaf of the workspace shows its path (the view state
    has a [state] whose [file] is that string), and flagged active exactly
    when its path is the path of the active file; its file comes from the
    vault's catalog. *)
Theorem command_modal_flags
    (app : App) (s : ContentIndex) (query : jsstring) (r : SearchResult) :
  r ∈ getSuggestions toLowerCase localeCompare (openFileSearchMenu app) s query ->
  file r ∈ getFiles (vault app) /\
  (isOpen r = true <->
   exists leaf, leaf ∈ leaves (workspace app) /\
                showsFile (path (file r)) leaf = true) /\
  (isActive r = true <->
   path <$> getActiveFile (workspace app) = Some (path (file r))).
Proof.
  intros Hr.
  destruct (getSuggestions_flags toLowerCase localeCompare _ _ _ _ Hr)
    as (Hin & Hopen & Hactive).
  split; [exact Hin|]. split.
  - rewrite Hopen, bool_decide_eq_true. apply getOpenFilePaths_elem_of.
  - rewrite Hactive, bool_decide_eq_true. done.
Qed.

Lemma foldl_detach_leaves ds : forall ws,
  leaves (foldl (fun w d => detach d w) ws ds)
  = filter (fun leaf => leafId leaf ∉ map leafId ds) (leaves ws).
Proof.
  induction ds as [|d ds IH]; intros ws; cbn [foldl map].
  - symmetry. apply filter_all, Forall_forall.
    intros leaf _. apply not_elem_of_nil.
  - rewrite IH. cbn [detach leaves]. rewrite list_filter_filter.
    apply list_filter_iff. intros leaf. rewrite not_elem_of_cons. tauto.
Qed.

End WorkspaceFacts.

Section TabReuse.

Lemma leafId_in_map (l : WorkspaceLeaf) (ls : list WorkspaceLeaf) :
  l ∈ ls -> leafId l ∈ map leafId ls.
Proof. intros Hl. apply list_elem_of_In, in_map, list_elem_of_In, Hl. Qed.

(** X17. Tab reuse on ["file-open"]: when several leaves show the opened
    file, only the first of them is left showing it; every leaf that shows
    something else stays, and the order of the leaves is kept. With at most
    one leaf showing the file nothing changes. *)
Theorem file_open_keeps_first_leaf (f : TFile) (ws : Workspace) :
  NoDup (map leafId (leaves ws)) ->
  let shows := fun leaf => showsFile (path f) leaf = true in
  let ws' := onFileOpen (Some f) ws in
  filter shows (leaves ws') = take 1 (filter shows (leaves ws)) /\
  filter (fun leaf => ~ shows leaf) (leaves ws')
    = filter (fun leaf => ~ shows leaf) (leaves ws) /\
  leaves ws' `sublist_of` leaves ws /\
  ((length (filter shows (leaves ws)) <= 1)%nat -> ws' = ws).
Proof.
  intros Hnd shows ws'. unfold ws', onFileOpen. fold shows.
  destruct (Nat.ltb_spec 1 (length (filter shows (leaves ws)))) as [Hmany|Hfew].
  2:{ split; [|by repeat split].
      destruct (filter shows (leaves ws)) as [|a [|b rest]]; cbn in *;
        try done; lia. }
  destruct (filter shows (leaves ws)) as [|first dupes] eqn:Hmatches;
    [cbn in Hmany; lia|].
  rewrite foldl_detach_leaves. cbn [setActiveLeaf leaves].
  assert (map leafId (first :: dupes) `sublist_of` map leafId (leaves ws))
    as Hsub.
  { rewrite <- Hmatches. change (map ?g ?l) with (g <$> l).
    apply fmap_sublist, sublist_filter. }
  assert (NoDup (map leafId (first :: dupes))) as Hnd'
    by (by eapply NoDup_sublist_helper).
  cbn [map] in Hnd'. apply NoDup_cons in Hnd' as [Hfirst _].
  assert (forall d, d ∈ dupes -> d ∈ leaves ws /\ shows d) as Hdupes.
  { intros d Hd.
    assert (d ∈ filter shows (leaves ws)) as Hin
      by (rewrite Hmatches; by apply list_elem_of_further).
    apply list_elem_of_filter in Hin. tauto. }
  split; [|split; [|split]].
  - assert (filter shows
              (filter (fun leaf => leafId leaf ∉ map leafId dupes) (leaves ws))
            = filter (fun leaf => leafId leaf ∉ map leafId dupes)
                (filter shows (leaves ws))) as ->.
    { rewrite !list_filter_filter. apply list_filter_iff. tauto. }
    rewrite Hmatches, filter_cons_True by done.
    rewrite filter_none; [done|].
    apply Forall_forall. intros d Hd Hout. apply Hout.
    by apply leafId_in_map.
  - rewrite list_filter_filter. apply filter_ext_in.
    intros l Hl. split; [tauto|]. intros Hno. split; [done|].
    intros Hid. apply Hno.
    apply list_elem_of_In, in_map_iff in Hid as (d & Heq & Hd).
    apply list_elem_of_In in Hd. destruct (Hdupes d Hd) as [Hd_in Hd_shows].
    by rewrite (NoDup_map_inj leafId (leaves ws) l d Hnd Hl Hd_in (eq_sym Heq)).
  - apply sublist_filter.
  - cbn [length]. intros Hle. cbn in Hmany. lia.
Qed.

End TabReuse.

(* ===================================================================== *)
(** * The earlier modal *)
(* ===================================================================== *)

Section LegacyFacts.

Variable toLowerCase : jsstring -> jsstring.

Lemma legacy_parts (modal : FileSearchModal) (query : jsstring) :
  exists A O C,
    Legacy.getSuggestions toLowerCase modal query = A ++ O ++ C /\
    A `sublist_of` allFiles modal /\
    O `sublist_of` allFiles modal /\
    C `sublist_of` allFiles modal /\
    Forall (fun f => legacyGroup modal f = 0%nat) A /\
    Forall (fun f => legacyGroup modal f = 1%nat) O /\
    Forall (fun f => legacyGroup modal f = 2%nat) C.
Proof.
  unfold Legacy.getSuggestions. eexists _, _, _. split; [reflexivity|].
  split; [|split; [|split; [|split; [|split]]]].
  - destruct (activeFilePath modal) as [a|]; [|apply sublist_nil_l].
    destruct (_ && _); [apply sublist_filter | apply sublist_nil_l].
  - etrans; apply sublist_filter.
  - etrans; apply sublist_filter.
  - destruct (activeFilePath modal) as [a|] eqn:Ha; [|constructor].
    destruct (_ && _); [|constructor].
    apply Forall_forall. intros f [Hf _]%list_elem_of_filter.
    unfold legacyGroup. rewrite Ha, Hf. by rewrite decide_True.
  - apply Forall_forall.
    intros f [_ [[Hopen Hne] _]%list_elem_of_filter]%list_elem_of_filter.
    unfold legacyGroup. rewrite decide_False by done. by rewrite decide_True.
  - apply Forall_forall.
    intros f [_ [[Hopen Hne] _]%list_elem_of_filter]%list_elem_of_filter.
    unfold legacyGroup. rewrite decide_False by done. by rewrite decide_False.
Qed.

Lemma filter_group (modal : FileSearchModal) (j k : nat) (X : list TFile) :
  Forall (fun f => legacyGroup modal f = j) X ->
  filter (fun f => legacyGroup modal f = k) X = if decide (j = k) then X else [].
Proof.
  intros HX. destruct (decide (j = k)) as [->|Hne].
  - by apply filter_all.
  - apply filter_none. eapply Forall_impl; [exact HX|]. cbn. congruence.
Qed.

(** X18. The earlier modal returns every file whose lowercased path
    contains the lowercased query, each as often as the catalog holds it,
    and nothing else: there is no cut and the empty query returns the whole
    catalog. The active path must not be the empty string, which the modal
    treats as no active file while still leaving out files of that path. *)
Theorem legacy_returns_every_path_match
    (modal : FileSearchModal) (query : jsstring) :
  activeFilePath modal <> Some [] ->
  Legacy.getSuggestions toLowerCase modal query
    ≡ₚ filter (fun f => Js.includes (toLowerCase (path f))
                          (toLowerCase query) = true)
         (allFiles modal) /\
  (toLowerCase query = [] ->
   Legacy.getSuggestions toLowerCase modal query ≡ₚ allFiles modal).
Proof.
  intros Hactive.
  set (M := fun f => Js.includes (toLowerCase (path f)) (toLowerCase query) = true).
  set (act := fun f => Some (path f) = activeFilePath modal).
  assert (Legacy.getSuggestions toLowerCase modal query ≡ₚ
          filter M (allFiles modal)) as Hperm.
  { assert (Legacy.getSuggestions toLowerCase modal query =
            filter M (filter act (allFiles modal)) ++
            filter M (filter (fun f => path f ∈ openFilePaths modal)
                        (filter (fun f => ~ act f) (allFiles modal))) ++
            filter M (filter (fun f => path f ∉ openFilePaths modal)
                        (filter (fun f => ~ act f) (allFiles modal)))) as ->.
    { unfold Legacy.getSuggestions. fold M. f_equal; [|f_equal].
      - destruct (activeFilePath modal) as [a|] eqn:Ha.
        + assert (Js.truthy a = true) as ->
            by (destruct a; [by destruct Hactive | done]).
          cbn [andb].
          assert (filter act (allFiles modal)
                  = filter (fun f => path f = a) (allFiles modal)) as ->.
          { apply list_filter_iff. intros f. unfold act. rewrite ?Ha.
            split; [by intros [= ->] | by intros ->]. }
          destruct (Js.includes (toLowerCase a) (toLowerCase query)) eqn:Hinc.
          * symmetry. apply list_filter_filter_r.
            intros f Hf. unfold M. by rewrite Hf.
          * symmetry. rewrite list_filter_filter. apply filter_none.
            apply Forall_forall. intros f _ [HM Hf]. unfold M in HM.
            rewrite Hf in HM. congruence.
        + symmetry. rewrite list_filter_filter. apply filter_none.
          apply Forall_forall. intros f _ [_ Hact]. unfold act in Hact.
          rewrite ?Ha in Hact. discriminate Hact.
      - f_equal. rewrite list_filter_filter. apply list_filter_iff.
        intros f. unfold act. tauto.
      - f_equal. rewrite list_filter_filter. apply list_filter_iff.
        intros f. unfold act. tauto. }
    rewrite <- !filter_app.
    apply filter_Permutation.
    rewrite (filter_app_complement (fun f => path f ∈ openFilePaths modal)).
    apply filter_app_complement. }
  split; [exact Hperm|].
  intros Hq. rewrite Hperm. unfold M. rewrite Hq.
  rewrite filter_all; [done|]. apply Forall_forall. intros f _.
  unfold Js.includes, Js.indexOf. by destruct (toLowerCase (path f)).
Qed.

(** X19. The earlier modal lists the active file first, then the open
    files, then all others, and keeps the catalog order inside each of the
    three groups. *)
Theorem legacy_groups_in_order (modal : FileSearchModal) (query : jsstring) :
  StronglySorted (fun f g => (legacyGroup modal f <= legacyGroup modal g)%nat)
    (Legacy.getSuggestions toLowerCase modal query) /\
  (forall k,
      filter (fun f => legacyGroup modal f = k)
        (Legacy.getSuggestions toLowerCase modal query)
      `sublist_of` allFiles modal).
Proof.
  destruct (legacy_parts modal query)
    as (A & O & C & -> & HA & HO & HC & GA & GO & GC).
  assert (forall j (X : list TFile),
    Forall (fun f => legacyGroup modal f = j) X ->
    StronglySorted (fun f g => (legacyGroup modal f <= legacyGroup modal g)%nat) X)
    as Hconst.
  { intros j X HX. induction HX as [|x X Hx HX IH]; constructor; [done|].
    eapply Forall_impl; [exact HX|]. cbn. intros y Hy. lia. }
  rewrite Forall_forall in GA, GO, GC.
  split.
  - apply StronglySorted_app_2; [|by eapply Hconst, Forall_forall|].
    + intros f g Hf [Hg|Hg]%elem_of_app;
        rewrite (GA f Hf); lia.
    + apply StronglySorted_app_2;
        [|by eapply Hconst, Forall_forall | by eapply Hconst, Forall_forall].
      intros f g Hf Hg. rewrite (GO f Hf), (GC g Hg). lia.
  - intros k. rewrite !filter_app.
    rewrite (filter_group modal 0 k A), (filter_group modal 1 k O),
      (filter_group modal 2 k C) by (by apply Forall_forall).
    destruct k as [|[|[|k]]]; cbn; rewrite ?app_nil_r; try done.
    apply sublist_nil_l.
Qed.

End LegacyFacts.

(* ===================================================================== *)
(** * Concrete runs of the further properties *)
(* ===================================================================== *)

Lemma blank_query_returns_nothing_witness :
  Js.asciiLower [] = [] /\
  allWhiteSpace [32; 9; 32]%N /\
  getSuggestions Js.asciiLower Js.codeUnitCompare
      sampleModal builtIndex [32; 9; 32]%N = [].
Proof.
  assert (Js.asciiLower [] = []) as H1 by reflexivity.
  assert (allWhiteSpace [32; 9; 32]%N) as H2 by (repeat constructor).
  split; [exact H1|]. split; [exact H2|].
  exact (blank_query_returns_nothing Js.asciiLower Js.codeUnitCompare sampleModal builtIndex _ H1 H2).
Defined.

Lemma short_query_ignores_index_witness :
  Js.len (Js.asciiLower (Js.trim (Js.lit " ay "))) < 3 /\
  getSuggestions Js.asciiLower Js.codeUnitCompare sampleModal builtIndex (Js.lit " ay ")
    = getSuggestions Js.asciiLower Js.codeUnitCompare
        sampleModal newContentIndex (Js.lit " ay ") /\
  textByPath builtIndex !! Js.lit "gamma.txt" = Some (Js.lit "gamma  rays").
Proof.
  assert (Js.len (Js.asciiLower (Js.trim (Js.lit " ay "))) < 3) as H1
    by (by vm_compute).
  destruct (short_query_ignores_index Js.asciiLower Js.codeUnitCompare sampleModal builtIndex
              newContentIndex (Js.lit " ay ") H1) as [Hsame _].
  split; [exact H1|]. split; [exact Hsame | reflexivity].
Defined.

Lemma result_classification_witness :
  gammaByContent ∈ getSuggestions Js.asciiLower Js.codeUnitCompare
      sampleModal builtIndex
                     (Js.lit " RAYS") /\
  file gammaByContent ∈ allFiles sampleModal /\
  snippet gammaByContent =
    Found.snippet <$> findSnippet builtIndex (Js.lit "gamma.txt") (Js.lit "rays").
Proof.
  assert (gammaByContent ∈ getSuggestions Js.asciiLower Js.codeUnitCompare
      sampleModal builtIndex
                             (Js.lit " RAYS")) as H1.
  { assert (getSuggestions Js.asciiLower Js.codeUnitCompare
      sampleModal builtIndex (Js.lit " RAYS")
            = [gammaByContent]) as -> by reflexivity.
    apply list_elem_of_here. }
  destruct (result_classification Js.asciiLower Js.codeUnitCompare sampleModal builtIndex _ _ H1)
    as (Hin & _ & _ & _ & Hsn & _).
  split; [exact H1|]. split; [exact Hin|]. exact Hsn.
Defined.

Lemma results_are_few_and_distinct_witness :
  NoDup (map path (allFiles sampleModal)) /\
  NoDup (map (fun r => path (file r))
           (getSuggestions Js.asciiLower Js.codeUnitCompare sampleModal
              builtIndex (Js.lit "a"))) /\
  (length (getSuggestions Js.asciiLower Js.codeUnitCompare sampleModal
             builtIndex (Js.lit "a")) <= 200)%nat.
Proof.
  assert (NoDup (map path (allFiles sampleModal))) as H1
    by (apply (bool_decide_unpack _); by vm_compute).
  destruct (results_are_few_and_distinct Js.asciiLower Js.codeUnitCompare
              sampleModal builtIndex (Js.lit "a")) as (Hlen & _ & Hnd).
  split; [exact H1|]. split; [exact (Hnd H1) | exact Hlen].
Defined.

Lemma active_result_is_first_witness :
  NoDup (map path (allFiles sampleModal)) /\
  alphaByPath ∈ getSuggestions Js.asciiLower Js.codeUnitCompare
      sampleModal builtIndex (Js.lit "a") /\
  isActive alphaByPath = true /\
  getSuggestions Js.asciiLower Js.codeUnitCompare sampleModal builtIndex (Js.lit "a")
    = [alphaByPath; gammaByPath] /\
  head (getSuggestions Js.asciiLower Js.codeUnitCompare
      sampleModal builtIndex (Js.lit "a"))
    = Some alphaByPath.
Proof.
  assert (NoDup (map path (allFiles sampleModal))) as H1
    by (apply (bool_decide_unpack _); by vm_compute).
  assert (getSuggestions Js.asciiLower Js.codeUnitCompare
      sampleModal builtIndex (Js.lit "a")
          = [alphaByPath; gammaByPath]) as Hres by reflexivity.
  assert (alphaByPath ∈ getSuggestions Js.asciiLower Js.codeUnitCompare
      sampleModal builtIndex
                          (Js.lit "a")) as H2
    by (rewrite Hres; apply list_elem_of_here).
  assert (isActive alphaByPath = true) as H3 by reflexivity.
  split; [exact H1|]. split; [exact H2|]. split; [exact H3|].
  split; [exact Hres|].
  exact (active_result_is_first Js.asciiLower Js.codeUnitCompare sampleModal builtIndex _ _ H1 H2 H3).
Defined.

Lemma command_modal_flags_witness :
  gammaByPath ∈ getSuggestions Js.asciiLower Js.codeUnitCompare
      (openFileSearchMenu sampleApp)
                  builtIndex (Js.lit "gamma") /\
  isOpen gammaByPath = true /\
  exists leaf, leaf ∈ leaves (workspace sampleApp) /\
               showsFile (path (file gammaByPath)) leaf = true.
Proof.
  assert (gammaByPath ∈ getSuggestions Js.asciiLower Js.codeUnitCompare
      (openFileSearchMenu sampleApp)
                          builtIndex (Js.lit "gamma")) as H1.
  { assert (getSuggestions Js.asciiLower Js.codeUnitCompare
      (openFileSearchMenu sampleApp)
              builtIndex (Js.lit "gamma") = [gammaByPath]) as -> by reflexivity.
    apply list_elem_of_here. }
  destruct (command_modal_flags Js.asciiLower Js.codeUnitCompare sampleApp builtIndex _ _ H1)
    as (_ & Hopen & _).
  split; [exact H1|]. split; [reflexivity|].
  apply Hopen. reflexivity.
Defined.

Lemma file_open_keeps_first_leaf_witness :
  NoDup (map leafId (leaves sampleWorkspace)) /\
  filter (fun leaf => showsFile (path gammaTxt) leaf = true)
    (leaves (onFileOpen (Some gammaTxt) sampleWorkspace))
  = [leafShowing 1 "gamma.txt"] /\
  leaves (onFileOpen (Some gammaTxt) sampleWorkspace)
  = [leafShowing 1 "gamma.txt"; emptyLeaf 2; leafShowing 3 "alpha.md"].
Proof.
  assert (NoDup (map leafId (leaves sampleWorkspace))) as H1
    by (apply (bool_decide_unpack _); by vm_compute).
  destruct (file_open_keeps_first_leaf gammaTxt sampleWorkspace H1)
    as (Hfirst & _).
  split; [exact H1|]. split; [|reflexivity].
  rewrite Hfirst. reflexivity.
Defined.

Lemma legacy_returns_every_path_match_witness :
  activeFilePath sampleModal <> Some [] /\
  Legacy.getSuggestions Js.asciiLower sampleModal (Js.lit "MD")
    ≡ₚ [alphaMd; brokenMd] /\
  Legacy.getSuggestions Js.asciiLower sampleModal []
    = [alphaMd; gammaTxt; brokenMd].
Proof.
  assert (activeFilePath sampleModal <> Some []) as H1 by discriminate.
  destruct (legacy_returns_every_path_match Js.asciiLower sampleModal
              (Js.lit "MD") H1) as [Hperm _].
  split; [exact H1|]. split; [|reflexivity].
  rewrite Hperm. reflexivity.
Defined.
